(** * cvector.h: a type-erased growable array, embedded and verified

    The C header [src/cvector.h] implements a dynamic array over a single
    heap block: a three-word header ([size], [capacity], [element_size])
    followed by [capacity * element_size] bytes of element storage.  Every
    operation works on raw byte offsets computed in [size_t] arithmetic.

    The embedding below keeps that shape: header fields are integers with
    the wrap-around of a 64-bit [size_t] written out, the element region
    is a list of memory cells, a handle is a possibly-null block, and
    every function returns in an error monad whose faults are a failed
    [assert] and an access outside the block. *)

From Stdlib Require Import ZArith List Lia Bool.
From Stdlib Require Import Strings.Byte.
Import ListNotations.
Local Open Scope Z_scope.

(** ** [size_t] arithmetic *)

(** Width of [size_t] on the LP64 targets the library is built for. *)
Definition SIZE_BITS : Z := 64.
Definition SIZE_MODULUS : Z := 2 ^ SIZE_BITS.
Definition SIZE_MAX : Z := SIZE_MODULUS - 1.

(** Reduction of a mathematical integer to its [size_t] value. *)
Definition to_size_t (z : Z) : Z := z mod SIZE_MODULUS.

(** A value a [size_t] variable can hold. *)
Definition is_size_t (z : Z) : Prop := 0 <= z < SIZE_MODULUS.

(** ** Faults and the error monad *)

Inductive fault : Type :=
| AssertionFailure    (* an [assert] did not hold: the process aborts *)
| UndefinedBehaviour. (* null dereference or access outside the block *)

Inductive result (A : Type) : Type :=
| Ok (a : A)
| Fault (f : fault).
Arguments Ok {A} a.
Arguments Fault {A} f.

Definition bind {A B : Type} (m : result A) (k : A -> result B) : result B :=
  match m with
  | Ok a => k a
  | Fault f => Fault f
  end.

Notation "x <- m ;; k" := (bind m (fun x => k))
  (at level 61, m at next level, right associativity).

Definition assert (c : bool) : result unit :=
  if c then Ok tt else Fault AssertionFailure.

(** ** Memory *)

(** One byte of heap storage: freshly allocated bytes are indeterminate. *)
Inductive memval : Type :=
| Undef
| Data (b : byte).

(** [struct cvector_header]. *)
Record cvector_header : Type := mk_header {
  size : Z;
  capacity : Z;
  element_size : Z
}.

(** [HEADER_SIZE = sizeof(cvector_header)]: three [size_t] fields. *)
Definition HEADER_SIZE : Z := 3 * (SIZE_BITS / 8).

(** A heap block: the header and the bytes that follow it.  The block is
    [HEADER_SIZE + length data] bytes long. *)
Record block : Type := mk_block {
  header : cvector_header;
  data : list memval
}.

(** A [char *vec]: [None] is the null pointer.  Pointers into a block are
    byte offsets from its start. *)
Abbreviation handle := (option block).

Definition is_null (vec : handle) : bool :=
  match vec with
  | None => true
  | Some _ => false
  end.

(** Reading and writing a byte range of the element region. *)
Definition load (m : list memval) (off n : nat) : list memval :=
  firstn n (skipn off m).

Definition store (m : list memval) (off : nat) (bs : list memval) : list memval :=
  firstn off m ++ bs ++ skipn (off + length bs) m.

(** Content of a block's storage after it is reallocated to [n] bytes:
    the common prefix is kept, added bytes are indeterminate. *)
Definition resize_bytes (n : nat) (m : list memval) : list memval :=
  firstn n m ++ repeat Undef (n - length m).

(** The byte range [p, p + n) lies in the element region of [b].
    Pointers are formed as in C: an offset is first computed in [size_t],
    with wrap-around, and then added to [vec]; that addition is not
    reduced again, since a pointer past the end of the block is
    undefined whatever address a flat machine would compute for it.
    The header is not part of [data]: an access through a pointer that
    falls below [HEADER_SIZE], which the code can form only from a
    wrapped offset on a block that is not well-formed, is not followed
    into the header fields and is counted as a fault too.  Every theorem
    about a call that returns is stated where neither case arises. *)
Definition in_block (b : block) (p n : Z) : bool :=
  (HEADER_SIZE <=? p) && (0 <=? n) &&
  (p + n <=? HEADER_SIZE + Z.of_nat (length (data b))).

(** Index in [data] of the byte at offset [p] of the block. *)
Definition elem_off (p : Z) : nat := Z.to_nat (p - HEADER_SIZE).

(** [malloc(n)].  The allocator is taken to grant every request.  The
    header fields of a fresh block are indeterminate; both callers write
    all three of them before any is read. *)
Definition malloc (n : Z) : result handle :=
  if n <? HEADER_SIZE then Fault UndefinedBehaviour
  else Ok (Some (mk_block (mk_header 0 0 0)
                          (repeat Undef (Z.to_nat (n - HEADER_SIZE))))).

(** [realloc(vec, n)]: granted like every request, so the [assert(temp)]
    of [cvector_grow] holds.  A request below [HEADER_SIZE] yields a block
    that cannot hold the header the caller stores into next. *)
Definition realloc (vec : handle) (n : Z) : result handle :=
  match vec with
  | None => malloc n
  | Some b =>
      if n <? HEADER_SIZE then Fault UndefinedBehaviour
      else Ok (Some (mk_block (header b)
                              (resize_bytes (Z.to_nat (n - HEADER_SIZE)) (data b))))
  end.

(** [memcpy(vec + p, src, n)] where [src] points to the bytes [src]. *)
Definition memcpy (vec : handle) (p : Z) (src : list byte) (n : Z) : result handle :=
  match vec with
  | None => Fault UndefinedBehaviour
  | Some b =>
      if in_block b p n && (n <=? Z.of_nat (length src)) then
        Ok (Some (mk_block (header b)
                    (store (data b) (elem_off p)
                           (map Data (firstn (Z.to_nat n) src)))))
      else Fault UndefinedBehaviour
  end.

(** [memmove(vec + dst, vec + src, n)]: the source range is read in full
    before the destination is written. *)
Definition memmove (vec : handle) (dst src n : Z) : result handle :=
  match vec with
  | None => Fault UndefinedBehaviour
  | Some b =>
      if in_block b dst n && in_block b src n then
        Ok (Some (mk_block (header b)
                    (store (data b) (elem_off dst)
                           (load (data b) (elem_off src) (Z.to_nat n)))))
      else Fault UndefinedBehaviour
  end.

(** ** The operations of [cvector.h]

    A function that takes [char **vec] is given the handle [*vec] and
    returns the handle it leaves in [*vec]; the pointer [vec] itself is
    the address of a handle variable.  A function that takes [char *vec]
    and writes through it returns the block as written. *)

Definition cvector_capacity (vec : handle) : result Z :=
  _ <- assert (negb (is_null vec));;
  match vec with
  | Some b => Ok (capacity (header b))
  | None => Fault UndefinedBehaviour
  end.

Definition cvector_size (vec : handle) : result Z :=
  _ <- assert (negb (is_null vec));;
  match vec with
  | Some b => Ok (size (header b))
  | None => Fault UndefinedBehaviour
  end.

Definition cvector_element_size (vec : handle) : result Z :=
  _ <- assert (negb (is_null vec));;
  match vec with
  | Some b => Ok (element_size (header b))
  | None => Fault UndefinedBehaviour
  end.

Definition cvector_empty (vec : handle) : result bool :=
  sz <- cvector_size vec;;
  Ok (sz =? 0).

Definition cvector_set_capacity (vec : handle) (new_capacity : Z) : result handle :=
  _ <- assert (negb (is_null vec));;
  match vec with
  | Some b =>
      Ok (Some (mk_block (mk_header (size (header b)) new_capacity
                                    (element_size (header b)))
                         (data b)))
  | None => Fault UndefinedBehaviour
  end.

Definition cvector_set_size (vec : handle) (new_size : Z) : result handle :=
  _ <- assert (negb (is_null vec));;
  match vec with
  | Some b =>
      Ok (Some (mk_block (mk_header new_size (capacity (header b))
                                    (element_size (header b)))
                         (data b)))
  | None => Fault UndefinedBehaviour
  end.

Definition cvector_grow (vec : handle) (new_capacity : Z) : result handle :=
  es <- cvector_element_size vec;;
  let NEW_SIZE := to_size_t (HEADER_SIZE + to_size_t (new_capacity * es)) in
  temp <- realloc vec NEW_SIZE;;
  _ <- assert (negb (is_null temp));;
  cvector_set_capacity temp new_capacity.

Definition cvector_reserve (vec : handle) (new_capacity : Z) : result handle :=
  cap <- cvector_capacity vec;;
  if cap <? new_capacity then cvector_grow vec new_capacity
  else Ok vec.

Definition cvector_init (capacity0 element_size0 : Z) : result handle :=
  vec <- malloc HEADER_SIZE;;
  match vec with
  | None => Fault UndefinedBehaviour
  | Some b =>
      let vec := Some (mk_block (mk_header 0 0 element_size0) (data b)) in
      if is_null vec then cvector_reserve vec capacity0
      else Ok vec
  end.

Definition cvector_remove (vec : handle) (index : Z) : result handle :=
  if is_null vec then Ok vec
  else
    vector_size <- cvector_size vec;;
    if vector_size <=? index then Ok vec
    else
      let new_size := to_size_t (vector_size - 1) in
      vec <- cvector_set_size vec new_size;;
      es <- cvector_element_size vec;;
      let array_size := to_size_t (index * es) in
      let size_ := to_size_t (HEADER_SIZE + array_size) in
      let min := size_ in
      let max := min + es in
      let length_ := to_size_t (to_size_t (new_size - index) * es) in
      memmove vec min max length_.

Definition cvector_clear (vec : handle) : result handle :=
  _ <- assert (negb (is_null vec));;
  cvector_set_size vec 0.

(** [free]: the block is released and the caller's handle dangles. *)
Definition cvector_free (vec : handle) : result unit :=
  assert (negb (is_null vec)).

Definition cvector_compute_next_grow (sz : Z) : Z :=
  if sz =? 0 then 1 else to_size_t (Z.shiftl sz 1).

Definition cvector_push_back (vec : handle) (value : list byte) : result handle :=
  current_capacity <- cvector_capacity vec;;
  sz <- cvector_size vec;;
  vec <- (if current_capacity <=? sz
          then cvector_grow vec (cvector_compute_next_grow current_capacity)
          else Ok vec);;
  es <- cvector_element_size vec;;
  sz <- cvector_size vec;;
  let current_element := HEADER_SIZE + to_size_t (es * sz) in
  es <- cvector_element_size vec;;
  vec <- memcpy vec current_element value es;;
  sz <- cvector_size vec;;
  cvector_set_size vec (to_size_t (sz + 1)).

Definition cvector_insert (vec : handle) (index : Z) (fortran_data : list byte)
  : result handle :=
  _ <- assert (negb (is_null vec));;
  vec_capacity <- cvector_capacity vec;;
  sz <- cvector_size vec;;
  vec <- (if vec_capacity <=? sz
          then cvector_grow vec (cvector_compute_next_grow vec_capacity)
          else Ok vec);;
  current_size <- cvector_size vec;;
  es <- cvector_element_size vec;;
  vec <- (if index <? current_size then
            let min := HEADER_SIZE + to_size_t (index * es) in
            let max := min + es in
            let length_ := to_size_t (to_size_t (current_size - index) * es) in
            memmove vec max min length_
          else Ok vec);;
  vec <- memcpy vec (HEADER_SIZE + to_size_t (es * index)) fortran_data es;;
  cvector_set_size vec (to_size_t (current_size + 1)).

Definition cvector_pop_back (vec : handle) : result handle :=
  sz <- cvector_size vec;;
  cvector_set_size vec (to_size_t (sz - 1)).

(** [cvector_clone(from, to)]: [to_] is the handle [*to] on entry; the
    result is the handle stored into [*to]. *)
Definition cvector_clone (from to_ : handle) : result handle :=
  _ <- assert (negb (is_null from));;
  _ <- assert (is_null to_);;
  cap <- cvector_capacity from;;
  es <- cvector_element_size from;;
  let heap_size := to_size_t (HEADER_SIZE + to_size_t (cap * es)) in
  fresh <- malloc heap_size;;
  match from, fresh with
  | Some src, Some _ =>
      if heap_size <=? HEADER_SIZE + Z.of_nat (length (data src)) then
        Ok (Some (mk_block (header src)
                    (firstn (Z.to_nat (heap_size - HEADER_SIZE)) (data src))))
      else Fault UndefinedBehaviour
  | _, _ => Fault UndefinedBehaviour
  end.

(** [cvector_swap(vec, other)]: [vec] is the handle [*vec]; [other] is the
    [char **] argument itself, [None] when that pointer is null and
    [Some h] when it points to a handle variable holding [h].  The result
    is the pair of handles left in [*vec] and, when there is one, in
    [*other]. *)
Definition cvector_swap (vec : handle) (other : option handle)
  : result (handle * option handle) :=
  _ <- assert (negb (is_null vec));;
  match other with
  | Some o =>
      let swapper := vec in
      Ok (o, Some swapper)
  | None => Ok (vec, None)
  end.

Definition cvector_shrink_to_fit (vec : handle) : result handle :=
  _ <- assert (negb (is_null vec));;
  vec_size <- cvector_size vec;;
  cvector_grow vec vec_size.

(** The result is [None] for [NULL] and [Some p] for the pointer [vec + p]. *)
Definition cvector_get (vec : handle) (index : Z) : result (option Z) :=
  _ <- assert (negb (is_null vec));;
  sz <- cvector_size vec;;
  es <- cvector_element_size vec;;
  if (index <? 0) || (sz <=? index) then Ok None
  else Ok (Some (HEADER_SIZE + to_size_t (index * es))).

Definition cvector_set (vec : handle) (index : Z) (fortran_data : list byte)
  : result handle :=
  current_size <- cvector_size vec;;
  es <- cvector_element_size vec;;
  memcpy vec (HEADER_SIZE + to_size_t (es * index)) fortran_data es.

Definition cvector_front (vec : handle) : result (option Z) :=
  _ <- assert (negb (is_null vec));;
  sz <- cvector_size vec;;
  if 0 <? sz then cvector_get vec 0 else Ok None.

Definition cvector_back (vec : handle) : result (option Z) :=
  _ <- assert (negb (is_null vec));;
  sz <- cvector_size vec;;
  if 0 <? sz then cvector_get vec (to_size_t (sz - 1)) else Ok None.

(** The two loops of [cvector_resize].  Each runs its body once per unit
    of distance between the local counter [old_size] and [new_size]. *)
Fixpoint push_back_loop (n : nat) (vec : handle) (value : list byte)
  : result handle :=
  match n with
  | O => Ok vec
  | S n' =>
      vec <- cvector_push_back vec value;;
      push_back_loop n' vec value
  end.

Fixpoint pop_back_loop (n : nat) (vec : handle) : result handle :=
  match n with
  | O => Ok vec
  | S n' =>
      vec <- cvector_pop_back vec;;
      pop_back_loop n' vec
  end.

Definition cvector_resize (vec : handle) (new_size : Z) (value : list byte)
  : result handle :=
  match vec with
  | None => Fault UndefinedBehaviour
  | Some b =>
      let old_size := size (header b) in
      if old_size <? new_size then
        vec <- cvector_reserve vec new_size;;
        vec <- cvector_set_size vec 0;;
        push_back_loop (Z.to_nat (new_size - old_size)) vec value
      else
        pop_back_loop (Z.to_nat (old_size - new_size)) vec
  end.

(** ** Well-formed blocks *)

(** The representation invariant of a live vector: the header fields are
    [size_t] values, [size] does not exceed [capacity], and the block is
    exactly [HEADER_SIZE + capacity * element_size] bytes long, a length
    that is itself a [size_t]. *)
Definition wf (b : block) : Prop :=
  0 <= size (header b) <= capacity (header b) /\
  0 <= element_size (header b) < SIZE_MODULUS /\
  Z.of_nat (length (data b)) = capacity (header b) * element_size (header b) /\
  HEADER_SIZE + capacity (header b) * element_size (header b) < SIZE_MODULUS /\
  capacity (header b) < SIZE_MODULUS.

(** The bytes of the elements [0 .. size - 1]. *)
Definition live_bytes (b : block) : list memval :=
  firstn (Z.to_nat (size (header b) * element_size (header b))) (data b).

(** The bytes of the elements [0 .. i - 1]. *)
Definition bytes_before (b : block) (i : Z) : list memval :=
  firstn (Z.to_nat (i * element_size (header b))) (data b).

(** The capacity and the storage once [cvector_push_back] and
    [cvector_insert] have made room: untouched while [size < capacity],
    regrown to [cvector_compute_next_grow capacity] otherwise. *)
Definition grown_capacity (b : block) : Z :=
  if capacity (header b) <=? size (header b)
  then cvector_compute_next_grow (capacity (header b))
  else capacity (header b).

Definition grown (b : block) : block :=
  mk_block
    (mk_header (size (header b)) (grown_capacity b) (element_size (header b)))
    (if capacity (header b) <=? size (header b)
     then resize_bytes
            (Z.to_nat (grown_capacity b * element_size (header b))) (data b)
     else data b).

(** Growth neither wraps around nor asks for a block longer than a
    [size_t] can express. *)
Definition room (b : block) : Prop :=
  size (header b) < grown_capacity b /\
  HEADER_SIZE + grown_capacity b * element_size (header b) < SIZE_MODULUS.

(** ** Observations *)

(** The capacities read back after each of a run of consecutive appends,
    with nothing else done to the vector in between. *)
Fixpoint capacity_trace (vec : handle) (values : list (list byte))
  : result (list Z) :=
  match values with
  | [] => Ok []
  | value :: rest =>
      vec <- cvector_push_back vec value;;
      cap <- cvector_capacity vec;;
      caps <- capacity_trace vec rest;;
      Ok (cap :: caps)
  end.

(** The least power of two that is at least [k]: 1, 2, 4, 4, 8, 8, 8, 8,
    16, ... for [k] = 1, 2, 3, ... *)
Definition pow2_ceiling (k : Z) : Z := 2 ^ Z.log2_up k.

(** ** The operations as a transition system *)

(** The mutating operations a caller can apply to one live vector. *)
Inductive operation : Type :=
| Reserve (new_capacity : Z)
| Grow (new_capacity : Z)
| ShrinkToFit
| PushBack (value : list byte)
| PopBack
| Insert (index : Z) (value : list byte)
| Remove (index : Z)
| Clear
| Resize (new_size : Z) (value : list byte)
| Clone.

(** The handle an operation leaves behind; for [Clone] it is the handle
    of the copy, made into a null destination. *)
Definition run (op : operation) (vec : handle) : result handle :=
  match op with
  | Reserve n => cvector_reserve vec n
  | Grow n => cvector_grow vec n
  | ShrinkToFit => cvector_shrink_to_fit vec
  | PushBack value => cvector_push_back vec value
  | PopBack => cvector_pop_back vec
  | Insert index value => cvector_insert vec index value
  | Remove index => cvector_remove vec index
  | Clear => cvector_clear vec
  | Resize n value => cvector_resize vec n value
  | Clone => cvector_clone vec None
  end.

(** The header fields hold [size_t] values. *)
Definition header_ok (b : block) : Prop :=
  is_size_t (size (header b)) /\
  is_size_t (capacity (header b)) /\
  is_size_t (element_size (header b)).

Definition size_le_capacity (b : block) : Prop :=
  size (header b) <= capacity (header b).

Definition handle_ok (vec : handle) : Prop :=
  match vec with
  | Some b => size_le_capacity b
  | None => True
  end.

(** What each operation asks of its caller: arguments of type [size_t]
    are [size_t] values, a pop needs an element to drop, and an append or
    insert is not asked to double a capacity past [SIZE_MAX]. *)
Definition contract (op : operation) (b : block) : Prop :=
  match op with
  | Reserve n => is_size_t n
  | Grow n => is_size_t n
  | PushBack _ => 2 * capacity (header b) < SIZE_MODULUS
  | PopBack => 0 < size (header b)
  | Insert index _ =>
      is_size_t index /\ 2 * capacity (header b) < SIZE_MODULUS
  | Remove index => is_size_t index
  | Resize n _ => is_size_t n
  | ShrinkToFit | Clear | Clone => True
  end.

(** The same, with the one condition the code relies on without
    checking: [cvector_grow] is only asked for a capacity that holds the
    current elements. *)
Definition precondition (op : operation) (b : block) : Prop :=
  contract op b /\
  match op with
  | Grow n => size (header b) <= n
  | _ => True
  end.

(** ** Calls to the allocator *)

(** A call the library makes to the allocator, with the length it asks
    for. *)
Inductive alloc_call : Type :=
| ReallocCall (new_bytes : Z).

(** [cvector_grow], [cvector_shrink_to_fit] and [cvector_reserve] once
    more, statement by statement, returning beside the result the calls
    to [realloc] made on the way.  [cvector_grow] has no branch around
    its call; [cvector_shrink_to_fit] reaches it after its [assert];
    [cvector_reserve] reaches it only inside its [if]. *)
Definition cvector_grow_calls (vec : handle) (new_capacity : Z)
  : result handle * list alloc_call :=
  match cvector_element_size vec with
  | Fault f => (Fault f, [])
  | Ok es =>
      let NEW_SIZE := to_size_t (HEADER_SIZE + to_size_t (new_capacity * es)) in
      (temp <- realloc vec NEW_SIZE;;
       _ <- assert (negb (is_null temp));;
       cvector_set_capacity temp new_capacity,
       [ReallocCall NEW_SIZE])
  end.

Definition cvector_shrink_to_fit_calls (vec : handle)
  : result handle * list alloc_call :=
  match assert (negb (is_null vec)) with
  | Fault f => (Fault f, [])
  | Ok _ =>
      match cvector_size vec with
      | Fault f => (Fault f, [])
      | Ok vec_size => cvector_grow_calls vec vec_size
      end
  end.

Definition cvector_reserve_calls (vec : handle) (new_capacity : Z)
  : result handle * list alloc_call :=
  match cvector_capacity vec with
  | Fault f => (Fault f, [])
  | Ok cap =>
      if cap <? new_capacity then cvector_grow_calls vec new_capacity
      else (Ok vec, [])
  end.

(** ** Slots and safe calls *)

(** The bytes held by slot [j] of the element region. *)
Definition slot (b : block) (j : Z) : list memval :=
  load (data b) (Z.to_nat (j * element_size (header b)))
       (Z.to_nat (element_size (header b))).

(** The bytes of the [n] consecutive slots starting at slot [j]. *)
Definition slots (b : block) (j n : Z) : list memval :=
  load (data b) (Z.to_nat (j * element_size (header b)))
       (Z.to_nat (n * element_size (header b))).

(** The bytes an operation copies out of the caller's [value]. *)
Definition stored (b : block) (value : list byte) : list memval :=
  map Data (firstn (Z.to_nat (element_size (header b))) value).

(** A capacity whose block length is still a [size_t]. *)
Definition fits (b : block) (n : Z) : Prop :=
  is_size_t n /\ HEADER_SIZE + n * element_size (header b) < SIZE_MODULUS.

(** Calls that stay inside the block: indices are in range, values
    point to at least one element's worth of bytes, and no requested
    block length wraps around. *)
Definition safe_call (op : operation) (b : block) : Prop :=
  match op with
  | Reserve n => fits b n
  | Grow n => fits b n /\ size (header b) <= n
  | ShrinkToFit | Clear | Clone => True
  | PushBack value =>
      room b /\ element_size (header b) <= Z.of_nat (length value)
  | PopBack => 0 < size (header b)
  | Insert index value =>
      room b /\ 0 <= index <= size (header b) /\
      element_size (header b) <= Z.of_nat (length value)
  | Remove index => is_size_t index
  | Resize n value =>
      fits b n /\
      (size (header b) < n ->
       element_size (header b) <= Z.of_nat (length value))
  end.

(** Operations that are meant to change the capacity downwards or to an
    arbitrary value. *)
Definition sets_capacity (op : operation) : bool :=
  match op with
  | Grow _ | ShrinkToFit => true
  | _ => false
  end.

(** ** Scenarios *)

(** A freshly initialised vector of 4-byte elements. *)
Definition example_empty : block := mk_block (mk_header 0 0 4) [].

(** The vector of 32-bit integers [1, 2, 3] with capacity 4. *)
Definition example_ints : block :=
  mk_block (mk_header 3 4 4)
    [Data x01; Data x00; Data x00; Data x00;
     Data x02; Data x00; Data x00; Data x00;
     Data x03; Data x00; Data x00; Data x00;
     Undef; Undef; Undef; Undef].

(** A full vector holding the single byte [7]. *)
Definition example_full : block := mk_block (mk_header 1 1 1) [Data x07].

(** The 32-bit integer [9] as an element value. *)
Definition nine : list byte := [x09; x00; x00; x00].

(** One live byte [7] in a block with room for four. *)
Definition example_bytes : block :=
  mk_block (mk_header 1 4 1) [Data x07; Undef; Undef; Undef].

(** * Properties *)

(** ** Facts about [size_t] arithmetic *)

Lemma SIZE_MODULUS_value : SIZE_MODULUS = 18446744073709551616.
Proof. reflexivity. Qed.

Lemma HEADER_SIZE_value : HEADER_SIZE = 24.
Proof. reflexivity. Qed.

Lemma to_size_t_small (z : Z) : 0 <= z < SIZE_MODULUS -> to_size_t z = z.
Proof. intros H. unfold to_size_t. now apply Z.mod_small. Qed.

Lemma to_size_t_range (z : Z) : 0 <= to_size_t z < SIZE_MODULUS.
Proof. unfold to_size_t. apply Z.mod_pos_bound. reflexivity. Qed.

Lemma next_grow_zero : cvector_compute_next_grow 0 = 1.
Proof. reflexivity. Qed.

Lemma next_grow_double (c : Z) :
  0 < c -> 2 * c < SIZE_MODULUS -> cvector_compute_next_grow c = 2 * c.
Proof.
  intros Hc Hd. unfold cvector_compute_next_grow.
  destruct (Z.eqb_spec c 0) as [->|_]; [lia|].
  rewrite Z.shiftl_mul_pow2 by lia. change (2 ^ 1) with 2.
  rewrite to_size_t_small; lia.
Qed.

Lemma next_grow_range (c : Z) :
  0 <= cvector_compute_next_grow c < SIZE_MODULUS.
Proof.
  unfold cvector_compute_next_grow. destruct (c =? 0).
  - rewrite SIZE_MODULUS_value. lia.
  - apply to_size_t_range.
Qed.

(** ** Facts about byte ranges *)

Section ByteRanges.
Local Open Scope nat_scope.
Implicit Types (m bs : list memval) (off n k p : nat).

Lemma nth_error_load m off n k :
  nth_error (load m off n) k =
  if k <? n then nth_error m (off + k) else None.
Proof. unfold load. now rewrite nth_error_firstn, nth_error_skipn. Qed.

Lemma nth_error_store m off bs k :
  off + length bs <= length m ->
  nth_error (store m off bs) k =
  if k <? off then nth_error m k
  else if k <? off + length bs then nth_error bs (k - off)
       else nth_error m k.
Proof.
  intros Hb. unfold store.
  rewrite nth_error_app, length_firstn, Nat.min_l by lia.
  destruct (Nat.ltb_spec k off) as [Hk|Hk].
  - rewrite nth_error_firstn.
    destruct (Nat.ltb_spec k off); [reflexivity | lia].
  - rewrite nth_error_app.
    destruct (Nat.ltb_spec (k - off) (length bs)) as [Hk'|Hk'];
      destruct (Nat.ltb_spec k (off + length bs)); try lia.
    + reflexivity.
    + rewrite nth_error_skipn. f_equal. lia.
Qed.

Lemma length_load m off n :
  off + n <= length m -> length (load m off n) = n.
Proof.
  intros Hb. unfold load. rewrite length_firstn, length_skipn. lia.
Qed.

Lemma length_store m off bs :
  off + length bs <= length m -> length (store m off bs) = length m.
Proof.
  intros Hb. unfold store.
  rewrite !length_app, length_firstn, length_skipn. lia.
Qed.

Lemma store_nil m off : store m off [] = m.
Proof.
  unfold store. simpl. rewrite Nat.add_0_r. apply firstn_skipn.
Qed.

(** A store leaves every byte below its destination alone. *)
Lemma firstn_store m off bs k :
  k <= off -> off + length bs <= length m ->
  firstn k (store m off bs) = firstn k m.
Proof.
  intros Hk Hb. apply nth_error_ext. intros i.
  rewrite !nth_error_firstn.
  destruct (Nat.ltb_spec i k); [|reflexivity].
  rewrite nth_error_store by assumption.
  destruct (Nat.ltb_spec i off); [reflexivity | lia].
Qed.

(** Reading back the range that was just written. *)
Lemma load_store_same m off bs :
  off + length bs <= length m ->
  load (store m off bs) off (length bs) = bs.
Proof.
  intros Hb. apply nth_error_ext. intros i.
  rewrite nth_error_load, nth_error_store by assumption.
  destruct (Nat.ltb_spec i (length bs)) as [Hi|Hi].
  - destruct (Nat.ltb_spec (off + i) off); [lia|].
    destruct (Nat.ltb_spec (off + i) (off + length bs)); [|lia].
    f_equal. lia.
  - symmetry. now apply nth_error_None.
Qed.

Lemma load_store_back m off bs n :
  off + length bs <= length m -> length bs = n ->
  load (store m off bs) off n = bs.
Proof. intros Hb <-. now apply load_store_same. Qed.

(** Reading a range the store did not touch. *)
Lemma load_store_other m off bs p n :
  off + length bs <= length m ->
  p + n <= off \/ off + length bs <= p ->
  load (store m off bs) p n = load m p n.
Proof.
  intros Hb Hd. apply nth_error_ext. intros i.
  rewrite !nth_error_load.
  destruct (Nat.ltb_spec i n) as [Hi|Hi]; [|reflexivity].
  rewrite nth_error_store by assumption.
  destruct (Nat.ltb_spec (p + i) off); [reflexivity|].
  destruct (Nat.ltb_spec (p + i) (off + length bs)); [lia | reflexivity].
Qed.

Lemma firstn_split_load m a b :
  firstn (a + b) m = firstn a m ++ load m a b.
Proof.
  apply nth_error_ext. intros i.
  rewrite nth_error_app, !nth_error_firstn, length_firstn.
  destruct (Nat.ltb_spec i (Nat.min a (length m))) as [Hi|Hi].
  - destruct (Nat.ltb_spec i (a + b)); destruct (Nat.ltb_spec i a);
      try lia; reflexivity.
  - rewrite nth_error_load.
    destruct (Nat.le_gt_cases a (length m)) as [Ha|Ha].
    + rewrite Nat.min_l in * by lia.
      destruct (Nat.ltb_spec i (a + b));
        destruct (Nat.ltb_spec (i - a) b); try lia; [|reflexivity].
      f_equal. lia.
    + rewrite Nat.min_r in * by lia.
      assert (Hn : forall j, length m <= j -> nth_error m j = None)
        by (intros j Hj; now apply nth_error_None).
      destruct (i <? a + b); destruct (i - length m <? b);
        rewrite ?Hn by lia; reflexivity.
Qed.

Lemma firstn_resize_bytes m n k :
  k <= n -> k <= length m ->
  firstn k (resize_bytes n m) = firstn k m.
Proof.
  intros Hk Hm. unfold resize_bytes.
  rewrite firstn_app, length_firstn, firstn_firstn.
  replace (k - Nat.min n (length m)) with 0 by lia.
  rewrite Nat.min_l by lia. simpl. apply app_nil_r.
Qed.

Lemma length_resize_bytes m n : length (resize_bytes n m) = n.
Proof.
  unfold resize_bytes. rewrite length_app, length_firstn, repeat_length. lia.
Qed.

Lemma resize_bytes_shrink m n :
  n <= length m -> resize_bytes n m = firstn n m.
Proof.
  intros H. unfold resize_bytes.
  replace (n - length m) with 0 by lia. simpl. apply app_nil_r.
Qed.
Lemma load_firstn m k p n :
  p + n <= k -> load (firstn k m) p n = load m p n.
Proof.
  intros Hk. apply nth_error_ext. intros i.
  rewrite !nth_error_load.
  destruct (Nat.ltb_spec i n); [|reflexivity].
  rewrite nth_error_firstn.
  destruct (Nat.ltb_spec (p + i) k); [reflexivity | lia].
Qed.

(** Shifting [l] bytes up by [w] from offset [a], writing [w] bytes at
    [a], then shifting the [l] bytes back down restores the first
    [a + l] bytes. *)
Lemma shift_write_unshift m a w l bs :
  length bs = w -> a + l + w <= length m ->
  let m1 := store m (a + w) (load m a l) in
  let m2 := store m1 a bs in
  let m3 := store m2 a (load m2 (a + w) l) in
  firstn (a + l) m3 = firstn (a + l) m.
Proof.
  intros Hbs Hlen m1 m2 m3.
  assert (Hl0 : length (load m a l) = l) by (apply length_load; lia).
  assert (Hm1 : length m1 = length m)
    by (unfold m1; apply length_store; lia).
  assert (Hm2 : length m2 = length m)
    by (unfold m2; rewrite length_store; lia).
  assert (Hl2 : length (load m2 (a + w) l) = l)
    by (apply length_load; lia).
  rewrite !firstn_split_load. f_equal.
  - unfold m3. rewrite firstn_store by lia.
    unfold m2. rewrite firstn_store by lia.
    unfold m1. apply firstn_store; lia.
  - unfold m3. rewrite load_store_back by lia.
    unfold m2. rewrite load_store_other by lia.
    unfold m1. apply load_store_back; lia.
Qed.
End ByteRanges.

(** ** Proof support *)

Opaque HEADER_SIZE SIZE_MODULUS.
Arguments to_size_t : simpl never.
Arguments memcpy : simpl never.
Arguments memmove : simpl never.
Arguments load : simpl never.
Arguments store : simpl never.
Arguments resize_bytes : simpl never.
Arguments in_block : simpl never.
Arguments elem_off : simpl never.
Arguments cvector_compute_next_grow : simpl never.

Ltac break_wf H :=
  let Hs := fresh "Hsize" in
  let He := fresh "Hes" in
  let Hd := fresh "Hdata" in
  let Ha := fresh "Halloc" in
  let Hc := fresh "Hcap" in
  destruct H as (Hs & He & Hd & Ha & Hc); simpl in Hs, He, Hd, Ha, Hc.

Ltac size_t_small :=
  repeat match goal with
         | |- context [to_size_t ?z] =>
             rewrite (to_size_t_small z)
               by (pose proof SIZE_MODULUS_value;
                   pose proof HEADER_SIZE_value; nia)
         end.

(** ** What the memory primitives do inside the block *)

Lemma elem_off_header (off : Z) : elem_off (HEADER_SIZE + off) = Z.to_nat off.
Proof. unfold elem_off. f_equal. lia. Qed.

Lemma in_block_true (b : block) (off n : Z) :
  0 <= off -> 0 <= n -> off + n <= Z.of_nat (length (data b)) ->
  in_block b (HEADER_SIZE + off) n = true.
Proof.
  intros Ho Hn Hb. unfold in_block.
  rewrite !andb_true_iff, !Z.leb_le. lia.
Qed.

Lemma memcpy_in_block (b : block) (off n : Z) (src : list byte) :
  0 <= off -> 0 <= n -> off + n <= Z.of_nat (length (data b)) ->
  n <= Z.of_nat (length src) ->
  memcpy (Some b) (HEADER_SIZE + off) src n =
  Ok (Some (mk_block (header b)
              (store (data b) (Z.to_nat off)
                     (map Data (firstn (Z.to_nat n) src))))).
Proof.
  intros Ho Hn Hb Hs. unfold memcpy.
  rewrite in_block_true by assumption.
  destruct (Z.leb_spec n (Z.of_nat (length src))); [|lia].
  simpl. now rewrite elem_off_header.
Qed.

Lemma memmove_in_block (b : block) (dst src n : Z) :
  0 <= dst -> 0 <= src -> 0 <= n ->
  dst + n <= Z.of_nat (length (data b)) ->
  src + n <= Z.of_nat (length (data b)) ->
  memmove (Some b) (HEADER_SIZE + dst) (HEADER_SIZE + src) n =
  Ok (Some (mk_block (header b)
              (store (data b) (Z.to_nat dst)
                     (load (data b) (Z.to_nat src) (Z.to_nat n))))).
Proof.
  intros Hd Hs Hn Hbd Hbs. unfold memmove.
  rewrite !in_block_true by assumption.
  simpl. now rewrite !elem_off_header.
Qed.

Lemma length_copied (src : list byte) (n : Z) :
  0 <= n <= Z.of_nat (length src) ->
  length (map Data (firstn (Z.to_nat n) src)) = Z.to_nat n.
Proof. intros H. rewrite length_map, length_firstn. lia. Qed.

(** ** What each operation does on a well-formed block *)

Lemma cvector_grow_spec (b : block) (n : Z) :
  0 <= element_size (header b) -> 0 <= n ->
  HEADER_SIZE + n * element_size (header b) < SIZE_MODULUS ->
  cvector_grow (Some b) n =
  Ok (Some (mk_block
              (mk_header (size (header b)) n (element_size (header b)))
              (resize_bytes (Z.to_nat (n * element_size (header b))) (data b)))).
Proof.
  intros He Hn Hfit.
  assert (0 <= n * element_size (header b)) by now apply Z.mul_nonneg_nonneg.
  unfold cvector_grow. simpl. size_t_small.
  unfold realloc.
  destruct (Z.ltb_spec (HEADER_SIZE + n * element_size (header b)) HEADER_SIZE);
    [lia|].
  replace (HEADER_SIZE + n * element_size (header b) - HEADER_SIZE)
    with (n * element_size (header b)) by lia.
  reflexivity.
Qed.

Lemma make_room (b : block) :
  wf b -> room b ->
  (if capacity (header b) <=? size (header b)
   then cvector_grow (Some b) (cvector_compute_next_grow (capacity (header b)))
   else Ok (Some b)) = Ok (Some (grown b)) /\ wf (grown b) /\
  size (header b) < capacity (header (grown b)).
Proof.
  intros Hwf (Hlt & Hfit). break_wf Hwf.
  unfold grown, grown_capacity in *.
  destruct b as [[s c e] d]; simpl in *.
  destruct (Z.leb_spec c s) as [Hfull|Hfree].
  - pose proof (next_grow_range c).
    rewrite cvector_grow_spec by (simpl; lia). simpl.
    repeat split; simpl; try lia.
    rewrite length_resize_bytes. nia.
  - repeat split; simpl; lia.
Qed.

Lemma cvector_push_back_spec (b : block) (value : list byte) :
  wf b -> room b ->
  element_size (header b) <= Z.of_nat (length value) ->
  cvector_push_back (Some b) value =
  Ok (Some (mk_block
              (mk_header (size (header b) + 1) (grown_capacity b)
                         (element_size (header b)))
              (store (data (grown b))
                     (Z.to_nat (element_size (header b) * size (header b)))
                     (map Data
                        (firstn (Z.to_nat (element_size (header b))) value))))).
Proof.
  intros Hwf Hroom Hval.
  destruct (make_room b Hwf Hroom) as (Hgrow & Hwf' & Hlt).
  unfold cvector_push_back. simpl. rewrite Hgrow. simpl.
  break_wf Hwf'. destruct Hroom as (_ & Hfit). simpl in Hlt.
  assert (0 <= element_size (header b) * size (header b))
    by (apply Z.mul_nonneg_nonneg; lia).
  assert (element_size (header b) * size (header b) + element_size (header b)
          <= grown_capacity b * element_size (header b)) by nia.
  size_t_small.
  rewrite memcpy_in_block by (simpl; lia).
  simpl. size_t_small. reflexivity.
Qed.

Lemma cvector_remove_spec (b : block) (i : Z) :
  wf b -> 0 <= i < size (header b) ->
  cvector_remove (Some b) i =
  Ok (Some (mk_block
              (mk_header (size (header b) - 1) (capacity (header b))
                         (element_size (header b)))
              (store (data b)
                 (Z.to_nat (i * element_size (header b)))
                 (load (data b)
                    (Z.to_nat (i * element_size (header b)
                               + element_size (header b)))
                    (Z.to_nat ((size (header b) - 1 - i)
                               * element_size (header b))))))).
Proof.
  intros Hwf Hi. break_wf Hwf.
  destruct b as [[s c e] d]; simpl in *.
  unfold cvector_remove. simpl.
  destruct (Z.leb_spec s i); [lia|].
  assert (0 <= i * e) by (apply Z.mul_nonneg_nonneg; lia).
  assert (0 <= (s - 1 - i) * e) by (apply Z.mul_nonneg_nonneg; lia).
  assert (i * e + e + (s - 1 - i) * e <= c * e) by nia.
  size_t_small.
  rewrite <- Z.add_assoc.
  rewrite memmove_in_block by (simpl; lia).
  reflexivity.
Qed.

Lemma cvector_insert_spec (b : block) (i : Z) (value : list byte) :
  wf b -> room b -> 0 <= i <= size (header b) ->
  element_size (header b) <= Z.of_nat (length value) ->
  cvector_insert (Some b) i value =
  Ok (Some (mk_block
              (mk_header (size (header b) + 1) (grown_capacity b)
                         (element_size (header b)))
              (store
                 (if i <? size (header b) then
                    store (data (grown b))
                      (Z.to_nat (i * element_size (header b)
                                 + element_size (header b)))
                      (load (data (grown b))
                         (Z.to_nat (i * element_size (header b)))
                         (Z.to_nat ((size (header b) - i)
                                    * element_size (header b))))
                  else data (grown b))
                 (Z.to_nat (element_size (header b) * i))
                 (map Data
                    (firstn (Z.to_nat (element_size (header b))) value))))).
Proof.
  intros Hwf Hroom Hi Hval.
  destruct (make_room b Hwf Hroom) as (Hgrow & Hwf' & Hlt).
  unfold cvector_insert. simpl. rewrite Hgrow. simpl.
  break_wf Hwf'. destruct Hroom as (_ & Hfit). simpl in Hlt.
  assert (0 <= i * element_size (header b))
    by (apply Z.mul_nonneg_nonneg; lia).
  assert (0 <= (size (header b) - i) * element_size (header b))
    by (apply Z.mul_nonneg_nonneg; lia).
  assert (size (header b) * element_size (header b) + element_size (header b)
          <= grown_capacity b * element_size (header b)) by nia.
  assert (i * element_size (header b) <=
          size (header b) * element_size (header b)) by nia.
  size_t_small.
  destruct (Z.ltb_spec i (size (header b))).
  - rewrite <- Z.add_assoc.
    rewrite memmove_in_block by (simpl; lia).
    simpl.
    rewrite memcpy_in_block;
      [reflexivity | simpl; try lia ..].
    rewrite length_store; [lia|].
    rewrite length_load; lia.
  - simpl. rewrite memcpy_in_block by (simpl; lia). reflexivity.
Qed.

Lemma cvector_pop_back_spec (b : block) :
  cvector_pop_back (Some b) =
  Ok (Some (mk_block
              (mk_header (to_size_t (size (header b) - 1))
                         (capacity (header b)) (element_size (header b)))
              (data b))).
Proof. reflexivity. Qed.

Lemma cvector_shrink_to_fit_spec (b : block) :
  wf b ->
  cvector_shrink_to_fit (Some b) =
  Ok (Some (mk_block
              (mk_header (size (header b)) (size (header b))
                         (element_size (header b)))
              (live_bytes b))).
Proof.
  intros Hwf. break_wf Hwf.
  unfold cvector_shrink_to_fit. simpl.
  assert (size (header b) * element_size (header b)
          <= capacity (header b) * element_size (header b)) by nia.
  rewrite cvector_grow_spec by lia.
  rewrite resize_bytes_shrink; [reflexivity|].
  assert (0 <= size (header b) * element_size (header b))
    by (apply Z.mul_nonneg_nonneg; lia).
  lia.
Qed.

Lemma next_grow_no_wrap (c : Z) :
  0 <= c < SIZE_MODULUS -> c < cvector_compute_next_grow c ->
  cvector_compute_next_grow c = Z.max 1 (2 * c).
Proof.
  intros Hc Hlt. unfold cvector_compute_next_grow in *.
  destruct (Z.eqb_spec c 0) as [->|Hnz]; [reflexivity|].
  rewrite Z.shiftl_mul_pow2 in * by lia. change (2 ^ 1) with 2 in *.
  unfold to_size_t in *. pose proof SIZE_MODULUS_value as HM.
  assert (Hcases : (c * 2) mod SIZE_MODULUS = c * 2 \/
                   (c * 2) mod SIZE_MODULUS = c * 2 - SIZE_MODULUS).
  { destruct (Z.lt_ge_cases (c * 2) SIZE_MODULUS).
    - left. apply Z.mod_small. lia.
    - right. symmetry. apply Z.mod_unique_pos with (q := 1); lia. }
  destruct Hcases as [E|E]; rewrite E in *; lia.
Qed.

Lemma cvector_push_back_wf (b : block) (value : list byte) :
  wf b -> room b ->
  element_size (header b) <= Z.of_nat (length value) ->
  exists b',
    cvector_push_back (Some b) value = Ok (Some b') /\ wf b' /\
    size (header b') = size (header b) + 1 /\
    capacity (header b') = grown_capacity b /\
    element_size (header b') = element_size (header b).
Proof.
  intros Hwf Hroom Hval.
  destruct (make_room b Hwf Hroom) as (_ & Hwf' & Hlt).
  rewrite cvector_push_back_spec by assumption.
  eexists. split; [reflexivity|]. simpl.
  break_wf Hwf'. simpl in Hlt. pose proof Hwf as Hwf0. break_wf Hwf0.
  repeat split; simpl; try lia.
  rewrite length_store; [exact Hdata|].
  rewrite length_copied by lia.
  assert (0 <= element_size (header b) * size (header b))
    by (apply Z.mul_nonneg_nonneg; lia).
  nia.
Qed.

(** ** Powers of two *)

Lemma pow2_ceiling_bounds (k : Z) :
  1 <= k -> k <= pow2_ceiling k < 2 * k.
Proof.
  intros Hk. unfold pow2_ceiling.
  destruct (Z.eq_dec k 1) as [->|Hne].
  - rewrite Z.log2_up_1. simpl. lia.
  - assert (Hk1 : 1 < k) by lia.
    pose proof (Z.log2_up_spec k Hk1) as [Hlo Hhi].
    pose proof (Z.log2_up_pos k Hk1) as Hpos.
    replace (Z.log2_up k) with (Z.succ (Z.pred (Z.log2_up k))) at 2 by lia.
    rewrite Z.pow_succ_r by lia. lia.
Qed.

Lemma pow2_ceiling_step (k : Z) :
  1 <= k ->
  pow2_ceiling (k + 1) =
  if pow2_ceiling k <=? k then 2 * pow2_ceiling k else pow2_ceiling k.
Proof.
  intros Hk. pose proof (pow2_ceiling_bounds k Hk) as Hb.
  unfold pow2_ceiling in *.
  pose proof (Z.log2_up_nonneg k) as Hnn.
  destruct (Z.leb_spec (2 ^ Z.log2_up k) k) as [Hfull|Hfree].
  - assert (Hlog : Z.log2_up (k + 1) = Z.succ (Z.log2_up k)).
    { apply Z.log2_up_unique; [lia|].
      rewrite Z.pred_succ, Z.pow_succ_r by lia. lia. }
    rewrite Hlog, Z.pow_succ_r by lia. reflexivity.
  - assert (Hk1 : 1 < k).
    { destruct (Z.eq_dec k 1) as [->|]; [|lia].
      rewrite Z.log2_up_1 in Hfree. simpl in Hfree. lia. }
    pose proof (Z.log2_up_spec k Hk1) as [Hlo Hhi].
    assert (Hlog : Z.log2_up (k + 1) = Z.log2_up k).
    { apply Z.log2_up_unique; [now apply Z.log2_up_pos | lia]. }
    now rewrite Hlog.
Qed.

Lemma capacity_trace_from (values : list (list byte)) :
  forall (b : block) (k : nat),
    wf b -> size (header b) = Z.of_nat k ->
    (k = 0%nat /\ capacity (header b) = 0 \/
     (1 <= k)%nat /\ capacity (header b) = pow2_ceiling (Z.of_nat k)) ->
    Forall (fun v => element_size (header b) <= Z.of_nat (length v)) values ->
    2 * Z.of_nat (k + length values) < SIZE_MODULUS ->
    HEADER_SIZE + 2 * Z.of_nat (k + length values) * element_size (header b)
      < SIZE_MODULUS ->
    capacity_trace (Some b) values =
    Ok (map (fun j => pow2_ceiling (Z.of_nat j)) (seq (S k) (length values))).
Proof.
  induction values as [|value rest IH]; intros b k Hwf Hsz Hcap Hvals Hn Hfit.
  - reflexivity.
  - inversion Hvals as [|? ? Hval Hrest]; subst.
    simpl length in *.
    assert (Hgc : grown_capacity b = pow2_ceiling (Z.of_nat (S k))).
    { unfold grown_capacity. destruct Hcap as [[-> Hc]|[Hk Hc]].
      - rewrite Hc, Hsz. reflexivity.
      - rewrite Hc, Hsz.
        replace (Z.of_nat (S k)) with (Z.of_nat k + 1) by lia.
        rewrite pow2_ceiling_step by lia.
        pose proof (pow2_ceiling_bounds (Z.of_nat k)) as Hb.
        destruct (Z.leb_spec (pow2_ceiling (Z.of_nat k)) (Z.of_nat k));
          [|reflexivity].
        rewrite next_grow_double; lia. }
    pose proof (pow2_ceiling_bounds (Z.of_nat (S k))) as Hb.
    pose proof Hwf as Hwf0. break_wf Hwf0.
    assert (Hroom : room b).
    { split; rewrite Hgc; [lia | nia]. }
    destruct (cvector_push_back_wf b value Hwf Hroom Hval)
      as (b' & Hpush & Hwf' & Hs' & Hc' & He').
    simpl. rewrite Hpush. simpl.
    rewrite (IH b' (S k)); try assumption.
    + simpl. now rewrite Hc', Hgc.
    + lia.
    + right. split; [lia|]. now rewrite Hc'.
    + now rewrite He'.
    + replace (S k + length rest)%nat with (k + S (length rest))%nat by lia.
      exact Hn.
    + rewrite He'.
      replace (S k + length rest)%nat with (k + S (length rest))%nat by lia.
      exact Hfit.
Qed.

(** ** Header effects, whatever the state of the storage *)

Lemma bind_Ok {A B : Type} (m : result A) (k : A -> result B) (r : B) :
  bind m k = Ok r -> exists a, m = Ok a /\ k a = Ok r.
Proof. destruct m as [a|f]; simpl; [eauto | discriminate]. Qed.

Lemma memcpy_header (b : block) (p : Z) (src : list byte) (n : Z) vec' :
  memcpy (Some b) p src n = Ok vec' ->
  exists b', vec' = Some b' /\ header b' = header b.
Proof.
  unfold memcpy. destruct (_ && _); [|discriminate].
  intros H. inversion H. eauto.
Qed.

Lemma memmove_header (b : block) (dst src n : Z) vec' :
  memmove (Some b) dst src n = Ok vec' ->
  exists b', vec' = Some b' /\ header b' = header b.
Proof.
  unfold memmove. destruct (_ && _); [|discriminate].
  intros H. inversion H. eauto.
Qed.

Lemma cvector_grow_header (b : block) (n : Z) vec' :
  cvector_grow (Some b) n = Ok vec' ->
  exists b', vec' = Some b' /\
    header b' = mk_header (size (header b)) n (element_size (header b)).
Proof.
  unfold cvector_grow. simpl. unfold realloc.
  destruct (_ <? HEADER_SIZE); simpl; [discriminate|].
  intros H. inversion H. eauto.
Qed.

Lemma cvector_reserve_header (b : block) (n : Z) vec' :
  cvector_reserve (Some b) n = Ok vec' ->
  exists b', vec' = Some b' /\
    header b' = mk_header (size (header b))
                  (if capacity (header b) <? n then n else capacity (header b))
                  (element_size (header b)).
Proof.
  unfold cvector_reserve. simpl.
  destruct (capacity (header b) <? n).
  - apply cvector_grow_header.
  - intros H. inversion H. exists b. split; [reflexivity|].
    now destruct b as [[? ? ?] ?].
Qed.

Lemma make_room_header (b : block) vec' :
  (if capacity (header b) <=? size (header b)
   then cvector_grow (Some b) (cvector_compute_next_grow (capacity (header b)))
   else Ok (Some b)) = Ok vec' ->
  exists b', vec' = Some b' /\
    header b' = mk_header (size (header b)) (grown_capacity b)
                  (element_size (header b)).
Proof.
  unfold grown_capacity.
  destruct (capacity (header b) <=? size (header b)).
  - apply cvector_grow_header.
  - intros H. inversion H. exists b. split; [reflexivity|].
    now destruct b as [[? ? ?] ?].
Qed.

Lemma cvector_push_back_header (b : block) (value : list byte) vec' :
  cvector_push_back (Some b) value = Ok vec' ->
  exists b', vec' = Some b' /\
    header b' = mk_header (to_size_t (size (header b) + 1))
                  (grown_capacity b) (element_size (header b)).
Proof.
  unfold cvector_push_back. simpl. intros H.
  apply bind_Ok in H as (v1 & Hg & H).
  apply make_room_header in Hg as (b1 & -> & Hh1). simpl in H.
  apply bind_Ok in H as (v2 & Hm & H).
  apply memcpy_header in Hm as (b2 & -> & Hh2). simpl in H.
  inversion H. eexists. split; [reflexivity|]. simpl.
  now rewrite Hh2, Hh1.
Qed.

Lemma cvector_insert_header (b : block) (i : Z) (value : list byte) vec' :
  cvector_insert (Some b) i value = Ok vec' ->
  exists b', vec' = Some b' /\
    header b' = mk_header (to_size_t (size (header b) + 1))
                  (grown_capacity b) (element_size (header b)).
Proof.
  unfold cvector_insert. simpl. intros H.
  apply bind_Ok in H as (v1 & Hg & H).
  apply make_room_header in Hg as (b1 & -> & Hh1). simpl in H.
  apply bind_Ok in H as (v2 & Hmv & H).
  assert (Hv2 : exists b2, v2 = Some b2 /\ header b2 = header b1).
  { destruct (i <? size (header b1)).
    - now apply memmove_header in Hmv.
    - inversion Hmv. eauto. }
  destruct Hv2 as (b2 & -> & Hh2).
  apply bind_Ok in H as (v3 & Hm & H).
  apply memcpy_header in Hm as (b3 & -> & Hh3). simpl in H.
  inversion H. eexists. split; [reflexivity|]. simpl.
  now rewrite Hh3, Hh2, Hh1.
Qed.

Lemma cvector_remove_header (b : block) (i : Z) vec' :
  cvector_remove (Some b) i = Ok vec' ->
  exists b', vec' = Some b' /\
    header b' = if size (header b) <=? i then header b
                else mk_header (to_size_t (size (header b) - 1))
                       (capacity (header b)) (element_size (header b)).
Proof.
  unfold cvector_remove. simpl.
  destruct (size (header b) <=? i).
  - intros H. inversion H. eauto.
  - intros H. apply memmove_header in H as (b' & -> & Hh). eauto.
Qed.

Lemma cvector_clone_header (b : block) vec' :
  cvector_clone (Some b) None = Ok vec' ->
  exists b', vec' = Some b' /\ header b' = header b.
Proof.
  unfold cvector_clone. simpl. intros H.
  apply bind_Ok in H as (fresh & _ & H).
  destruct fresh; [|discriminate].
  destruct (_ <=? _); [|discriminate].
  inversion H. eauto.
Qed.

Lemma push_back_loop_header (value : list byte) (n : nat) :
  forall (b : block) vec',
    0 <= size (header b) ->
    size (header b) + Z.of_nat n <= capacity (header b) ->
    capacity (header b) < SIZE_MODULUS ->
    push_back_loop n (Some b) value = Ok vec' ->
    exists b', vec' = Some b' /\
      header b' = mk_header (size (header b) + Z.of_nat n)
                    (capacity (header b)) (element_size (header b)).
Proof.
  induction n as [|n IH]; intros b vec' Hs Hroom Hc H.
  - simpl in H. inversion H. exists b. split; [reflexivity|].
    destruct b as [[? ? ?] ?]. simpl. f_equal. lia.
  - simpl in H. apply bind_Ok in H as (v1 & Hp & H).
    apply cvector_push_back_header in Hp as (b1 & -> & Hh1).
    assert (Hg : grown_capacity b = capacity (header b)).
    { unfold grown_capacity.
      destruct (Z.leb_spec (capacity (header b)) (size (header b)));
        [lia | reflexivity]. }
    rewrite Hg, to_size_t_small in Hh1 by lia.
    apply IH in H; rewrite ?Hh1; simpl; try lia.
    destruct H as (b' & -> & Hh'). exists b'. split; [reflexivity|].
    rewrite Hh', Hh1. simpl. f_equal. lia.
Qed.

Lemma pop_back_loop_header (n : nat) :
  forall (b : block) vec',
    Z.of_nat n <= size (header b) -> size (header b) < SIZE_MODULUS ->
    pop_back_loop n (Some b) = Ok vec' ->
    exists b', vec' = Some b' /\
      header b' = mk_header (size (header b) - Z.of_nat n)
                    (capacity (header b)) (element_size (header b)).
Proof.
  induction n as [|n IH]; intros b vec' Hn Hs H.
  - simpl in H. inversion H. exists b. split; [reflexivity|].
    destruct b as [[? ? ?] ?]. simpl. f_equal. lia.
  - simpl in H. rewrite to_size_t_small in H by lia.
    apply IH in H; simpl; try lia.
    destruct H as (b' & -> & Hh'). exists b'. split; [reflexivity|].
    rewrite Hh'. simpl. f_equal. lia.
Qed.

(** The header [cvector_resize] leaves: on the growing path the loop
    counts from the old size while the size field restarts at 0, so the
    vector ends with [new_size - size] elements. *)
Lemma cvector_resize_header (b : block) (n : Z) (value : list byte) vec' :
  header_ok b -> size_le_capacity b -> is_size_t n ->
  cvector_resize (Some b) n value = Ok vec' ->
  exists b', vec' = Some b' /\
    size (header b') =
      (if size (header b) <? n then n - size (header b) else n) /\
    capacity (header b') =
      (if capacity (header b) <? n then n else capacity (header b)) /\
    element_size (header b') = element_size (header b).
Proof.
  intros (Hs & Hc & He) Hinv Hn H.
  unfold is_size_t, size_le_capacity in *.
  unfold cvector_resize in H.
  destruct (Z.ltb_spec (size (header b)) n) as [Hgrow|Hshrink].
  - apply bind_Ok in H as (v1 & Hr & H).
    apply cvector_reserve_header in Hr as (b1 & -> & Hh1). simpl in H.
    apply push_back_loop_header in H; simpl; rewrite ?Hh1; simpl.
    + destruct H as (b' & -> & Hh'). exists b'. split; [reflexivity|].
      rewrite Hh'. simpl. rewrite Hh1. simpl. repeat split. lia.
    + lia.
    + destruct (Z.ltb_spec (capacity (header b)) n); lia.
    + destruct (Z.ltb_spec (capacity (header b)) n); lia.
  - apply pop_back_loop_header in H; try lia.
    destruct H as (b' & -> & Hh'). exists b'. split; [reflexivity|].
    rewrite Hh'. simpl. repeat split; try lia.
    destruct (Z.ltb_spec (capacity (header b)) n); lia.
Qed.

Lemma grown_capacity_holds_one_more (b : block) :
  header_ok b -> size_le_capacity b ->
  2 * capacity (header b) < SIZE_MODULUS ->
  to_size_t (size (header b) + 1) <= grown_capacity b.
Proof.
  intros (Hs & Hc & _) Hinv Hdouble.
  unfold is_size_t, size_le_capacity, grown_capacity in *.
  pose proof SIZE_MODULUS_value as HM.
  destruct (Z.leb_spec (capacity (header b)) (size (header b))).
  - destruct (Z.eq_dec (capacity (header b)) 0) as [E|E].
    + rewrite E, next_grow_zero, to_size_t_small; lia.
    + rewrite next_grow_double, to_size_t_small; lia.
  - rewrite to_size_t_small; lia.
Qed.

Lemma run_preserves_size_le_capacity (op : operation) (b : block) vec' :
  header_ok b -> size_le_capacity b -> precondition op b ->
  run op (Some b) = Ok vec' ->
  exists b', vec' = Some b' /\ size_le_capacity b'.
Proof.
  intros Hok Hinv [Hpre Hextra] Hrun.
  pose proof Hok as (Hs & Hc & He).
  unfold is_size_t, size_le_capacity in *.
  destruct op as [n|n| |value| |i value|i| |n value| ];
    simpl in Hrun, Hpre; unfold is_size_t in Hpre.
  - apply cvector_reserve_header in Hrun as (b' & -> & Hh).
    exists b'. split; [reflexivity|]. rewrite Hh. simpl.
    destruct (Z.ltb_spec (capacity (header b)) n); lia.
  - apply cvector_grow_header in Hrun as (b' & -> & Hh).
    exists b'. split; [reflexivity|]. rewrite Hh. simpl. exact Hextra.
  - apply cvector_grow_header in Hrun as (b' & -> & Hh).
    exists b'. split; [reflexivity|]. rewrite Hh. simpl. lia.
  - apply cvector_push_back_header in Hrun as (b' & -> & Hh).
    exists b'. split; [reflexivity|]. rewrite Hh. simpl.
    now apply grown_capacity_holds_one_more.
  - inversion Hrun. eexists. split; [reflexivity|]. simpl.
    rewrite to_size_t_small; lia.
  - apply cvector_insert_header in Hrun as (b' & -> & Hh).
    exists b'. split; [reflexivity|]. rewrite Hh. simpl.
    now apply grown_capacity_holds_one_more.
  - apply cvector_remove_header in Hrun as (b' & -> & Hh).
    exists b'. split; [reflexivity|]. rewrite Hh.
    destruct (Z.leb_spec (size (header b)) i); simpl; [lia|].
    rewrite to_size_t_small; lia.
  - inversion Hrun. eexists. split; [reflexivity|]. simpl. lia.
  - apply cvector_resize_header in Hrun as (b' & -> & Hs' & Hc' & _);
      try assumption; try exact Hpre.
    exists b'. split; [reflexivity|]. rewrite Hs', Hc'.
    destruct (Z.ltb_spec (size (header b)) n);
      destruct (Z.ltb_spec (capacity (header b)) n); lia.
  - apply cvector_clone_header in Hrun as (b' & -> & Hh).
    exists b'. split; [reflexivity|]. now rewrite Hh.
Qed.

(** * The claims *)

Ltac concrete :=
  repeat split; vm_compute;
  solve [ reflexivity | discriminate | intro; discriminate ].

(** C9. Popping from an empty vector wraps the unsigned size counter
    around: the size field becomes [2 ^ SIZE_BITS - 1], the largest
    [size_t], and the call returns normally instead of failing. *)
Theorem pop_back_empty_underflows (b : block) :
  size (header b) = 0 ->
  exists b', cvector_pop_back (Some b) = Ok (Some b') /\
             size (header b') = 2 ^ SIZE_BITS - 1 /\
             capacity (header b') = capacity (header b) /\
             data b' = data b.
Proof.
  intros Hempty. rewrite cvector_pop_back_spec. eexists. split; [reflexivity|].
  simpl. rewrite Hempty. repeat split.
Qed.

Lemma pop_back_empty_underflows_witness :
  exists b', cvector_pop_back (Some example_empty) = Ok (Some b') /\
             size (header b') = 2 ^ SIZE_BITS - 1 /\
             capacity (header b') = capacity (header example_empty) /\
             data b' = data example_empty.
Proof. apply (pop_back_empty_underflows example_empty). reflexivity. Defined.

(** C6. On a non-null vector [cvector_get] returns [NULL] for every index
    at or beyond [size] (so always on an empty vector), and for an index
    below [size] it returns the pointer to offset
    [HEADER_SIZE + index * element_size], which on a well-formed block
    designates [element_size] bytes inside the element region. *)
Theorem cvector_get_checks_bounds (b : block) (i : Z) :
  is_size_t i ->
  (size (header b) <= i -> cvector_get (Some b) i = Ok None) /\
  (i < size (header b) -> wf b ->
   cvector_get (Some b) i =
     Ok (Some (HEADER_SIZE + i * element_size (header b))) /\
   in_block b (HEADER_SIZE + i * element_size (header b))
            (element_size (header b)) = true).
Proof.
  intros [Hi0 Hi1]. unfold cvector_get. simpl. split.
  - intros Hout.
    destruct (Z.ltb_spec i 0); [lia|].
    destruct (Z.leb_spec (size (header b)) i); [reflexivity | lia].
  - intros Hin Hwf. break_wf Hwf.
    destruct (Z.ltb_spec i 0); [lia|].
    destruct (Z.leb_spec (size (header b)) i); [lia|]. simpl.
    assert (0 <= i * element_size (header b))
      by (apply Z.mul_nonneg_nonneg; lia).
    assert (i * element_size (header b) + element_size (header b)
            <= capacity (header b) * element_size (header b)) by nia.
    size_t_small. split; [reflexivity|].
    apply in_block_true; lia.
Qed.

Lemma cvector_get_checks_bounds_witness :
  cvector_get (Some example_ints) 3 = Ok None /\
  cvector_get (Some example_ints) 1 = Ok (Some (HEADER_SIZE + 1 * 4)) /\
  cvector_get (Some example_empty) 0 = Ok None.
Proof.
  assert (H3 : is_size_t 3) by concrete.
  assert (H1 : is_size_t 1) by concrete.
  assert (H0 : is_size_t 0) by concrete.
  split; [|split].
  - apply (proj1 (cvector_get_checks_bounds example_ints 3 H3)). concrete.
  - apply (proj2 (cvector_get_checks_bounds example_ints 1 H1)); concrete.
  - apply (proj1 (cvector_get_checks_bounds example_empty 0 H0)). concrete.
Defined.

(** C3 as stated fails: in [cvector_swap(&a, &b)] with [b] null the
    pointer [other] is [&b], which is not null, so the exchange runs and
    the first handle receives the null. *)
Lemma swap_with_null_handle_changes_first :
  exists r, cvector_swap (Some example_ints) (Some None) = Ok r /\
            fst r <> Some example_ints.
Proof. eexists. split; [reflexivity|]. simpl. discriminate. Qed.

(** C3, amended. The test in [cvector_swap] is on the pointer [other]
    itself.  For every non-null first vector: when [other] is the null
    pointer the first handle is left unchanged; when [other] points to a
    handle, the two handles are exchanged whatever they hold, so a null
    second handle moves into the first. *)
Theorem swap_guards_the_other_pointer (a : block) :
  cvector_swap (Some a) None = Ok (Some a, None) /\
  (forall o, cvector_swap (Some a) (Some o) = Ok (o, Some (Some a))).
Proof. split; [reflexivity | intros o; reflexivity]. Qed.

(** The recorded variants return the results of the plain functions. *)
Lemma cvector_grow_calls_result (vec : handle) (n : Z) :
  fst (cvector_grow_calls vec n) = cvector_grow vec n.
Proof. destruct vec; reflexivity. Qed.

Lemma cvector_shrink_to_fit_calls_result (vec : handle) :
  fst (cvector_shrink_to_fit_calls vec) = cvector_shrink_to_fit vec.
Proof. destruct vec; reflexivity. Qed.

Lemma cvector_reserve_calls_result (vec : handle) (n : Z) :
  fst (cvector_reserve_calls vec n) = cvector_reserve vec n.
Proof.
  destruct vec as [b|]; [|reflexivity].
  unfold cvector_reserve_calls, cvector_reserve. simpl.
  destruct (capacity (header b) <? n); reflexivity.
Qed.

(** C8. On a well-formed vector [cvector_shrink_to_fit] makes exactly
    one call to [realloc], for [HEADER_SIZE + size * element_size]
    bytes, whether or not the capacity already equals the size, and
    returns a block whose capacity is exactly the size, with the size,
    the element width and the bytes of all stored elements unchanged.
    [cvector_reserve] asked for the current capacity, by contrast, makes
    no call. *)
Theorem shrink_to_fit_exact (b : block) :
  wf b ->
  exists b',
    cvector_shrink_to_fit_calls (Some b) =
      (Ok (Some b'),
       [ReallocCall
          (HEADER_SIZE + size (header b) * element_size (header b))]) /\
    cvector_shrink_to_fit (Some b) = Ok (Some b') /\
    capacity (header b') = size (header b) /\
    size (header b') = size (header b) /\
    element_size (header b') = element_size (header b) /\
    live_bytes b' = live_bytes b /\
    data b' = live_bytes b /\
    cvector_reserve_calls (Some b) (capacity (header b)) = (Ok (Some b), []).
Proof.
  intros Hwf.
  pose proof (cvector_shrink_to_fit_spec b Hwf) as Hrun.
  eexists. split; [|split; [exact Hrun|]].
  - rewrite (surjective_pairing (cvector_shrink_to_fit_calls (Some b))).
    rewrite cvector_shrink_to_fit_calls_result, Hrun.
    f_equal. break_wf Hwf.
    assert (0 <= size (header b) * element_size (header b))
      by (apply Z.mul_nonneg_nonneg; lia).
    assert (size (header b) * element_size (header b)
            <= capacity (header b) * element_size (header b)) by nia.
    unfold cvector_shrink_to_fit_calls, cvector_grow_calls. simpl.
    size_t_small. reflexivity.
  - simpl. repeat split.
    + unfold live_bytes at 1. simpl. unfold live_bytes.
      rewrite firstn_firstn, Nat.min_id. reflexivity.
    + unfold cvector_reserve_calls. simpl. now rewrite Z.ltb_irrefl.
Qed.

Lemma shrink_to_fit_exact_witness :
  (exists b',
     cvector_shrink_to_fit_calls (Some example_full) =
       (Ok (Some b'), [ReallocCall (HEADER_SIZE + 1 * 1)]) /\
     capacity (header b') = 1 /\ size (header b') = 1 /\
     data b' = live_bytes example_full) /\
  (exists b',
     cvector_shrink_to_fit_calls (Some example_ints) =
       (Ok (Some b'), [ReallocCall (HEADER_SIZE + 3 * 4)]) /\
     capacity (header b') = 3 /\ size (header b') = 3 /\
     data b' = live_bytes example_ints).
Proof.
  split.
  - destruct (shrink_to_fit_exact example_full)
      as (b' & Hcalls & _ & Hc & Hs & _ & _ & Hd & _); [concrete|].
    exists b'. split; [exact Hcalls|]. split; [exact Hc|].
    split; [exact Hs | exact Hd].
  - destruct (shrink_to_fit_exact example_ints)
      as (b' & Hcalls & _ & Hc & Hs & _ & _ & Hd & _); [concrete|].
    exists b'. split; [exact Hcalls|]. split; [exact Hc|].
    split; [exact Hs | exact Hd].
Defined.

(** C10. Removing the element at an index below [size] leaves the
    capacity, the element width and the length of the block as they were,
    and does not touch the bytes of any element before that index: the
    prefix of the element region up to the removed slot is unchanged, and
    so is every single element [j < index]. *)
Theorem remove_frame (b : block) (i : Z) :
  wf b -> 0 <= i < size (header b) ->
  exists b',
    cvector_remove (Some b) i = Ok (Some b') /\
    capacity (header b') = capacity (header b) /\
    element_size (header b') = element_size (header b) /\
    size (header b') = size (header b) - 1 /\
    length (data b') = length (data b) /\
    bytes_before b' i = bytes_before b i /\
    (forall j, 0 <= j < i ->
       load (data b') (Z.to_nat (j * element_size (header b)))
            (Z.to_nat (element_size (header b))) =
       load (data b) (Z.to_nat (j * element_size (header b)))
            (Z.to_nat (element_size (header b)))).
Proof.
  intros Hwf Hi. rewrite cvector_remove_spec by assumption.
  break_wf Hwf. eexists. split; [reflexivity|]. simpl.
  set (e := element_size (header b)) in *.
  set (s := size (header b)) in *.
  assert (He0 : 0 <= i * e) by (apply Z.mul_nonneg_nonneg; lia).
  assert (Hl0 : 0 <= (s - 1 - i) * e) by (apply Z.mul_nonneg_nonneg; lia).
  assert (Hin : i * e + e + (s - 1 - i) * e <= capacity (header b) * e)
    by nia.
  assert (Hlen : length
            (load (data b) (Z.to_nat (i * e + e)) (Z.to_nat ((s - 1 - i) * e)))
          = Z.to_nat ((s - 1 - i) * e))
    by (apply length_load; lia).
  assert (Hpre : firstn (Z.to_nat (i * e))
            (store (data b) (Z.to_nat (i * e))
               (load (data b) (Z.to_nat (i * e + e))
                             (Z.to_nat ((s - 1 - i) * e))))
          = firstn (Z.to_nat (i * e)) (data b))
    by (apply firstn_store; lia).
  repeat split.
  - apply length_store. lia.
  - unfold bytes_before. simpl. exact Hpre.
  - intros j Hj.
    assert (0 <= j * e) by (apply Z.mul_nonneg_nonneg; lia).
    assert (j * e + e <= i * e) by nia.
    rewrite <- (load_firstn _ (Z.to_nat (i * e))) by lia.
    rewrite Hpre. apply load_firstn. lia.
Qed.

Lemma remove_frame_witness :
  exists b',
    cvector_remove (Some example_ints) 1 = Ok (Some b') /\
    capacity (header b') = 4 /\ element_size (header b') = 4 /\
    size (header b') = 2 /\
    bytes_before b' 1 = [Data x01; Data x00; Data x00; Data x00].
Proof.
  destruct (remove_frame example_ints 1) as (b' & Hrun & Hc & He & Hs & _ & Hb & _);
    [concrete | concrete |].
  exists b'. repeat split; try assumption.
Defined.

(** C4. On a well-formed vector with room to grow, inserting a value at
    any index [0 <= i <= size] and then removing index [i] returns
    normally and restores the element sequence: the size is what it was
    and so are the bytes of the elements [0 .. size - 1]. *)
Theorem insert_then_remove_restores (b : block) (i : Z) (value : list byte) :
  wf b -> room b -> 0 <= i <= size (header b) ->
  element_size (header b) <= Z.of_nat (length value) ->
  exists b',
    (vec <- cvector_insert (Some b) i value;; cvector_remove vec i)
      = Ok (Some b') /\
    size (header b') = size (header b) /\
    element_size (header b') = element_size (header b) /\
    live_bytes b' = live_bytes b.
Proof.
  intros Hwf Hroom Hi Hval.
  destruct (make_room b Hwf Hroom) as (_ & Hwf' & Hlt).
  rewrite cvector_insert_spec by assumption.
  cbn [bind].
  pose proof Hwf as Hwf0. break_wf Hwf0.
  pose proof Hwf' as Hwf1.
  destruct Hwf1 as (Hsize' & Hes' & Hdata' & Halloc' & Hcap').
  simpl in Hlt, Hsize', Hes', Halloc', Hcap'.
  change (capacity (header (grown b))) with (grown_capacity b) in Hdata'.
  change (element_size (header (grown b)))
    with (element_size (header b)) in Hdata'.
  set (e := element_size (header b)) in *.
  set (s := size (header b)) in *.
  set (D := data (grown b)) in *.
  assert (He0 : 0 <= i * e) by (apply Z.mul_nonneg_nonneg; lia).
  assert (Hl0 : 0 <= (s - i) * e) by (apply Z.mul_nonneg_nonneg; lia).
  assert (Hin : i * e + (s - i) * e + e <= grown_capacity b * e) by nia.
  assert (Hse : s * e = i * e + (s - i) * e) by lia.
  assert (Hsc : s * e <= capacity (header b) * e) by nia.
  (* byte-level names *)
  set (a := Z.to_nat (i * e)).
  set (w := Z.to_nat e).
  set (l := Z.to_nat ((s - i) * e)).
  replace (Z.to_nat (i * e + e)) with (a + w)%nat by (unfold a, w; lia).
  replace (Z.to_nat (e * i)) with a by (unfold a; f_equal; lia).
  fold w.
  set (bs := map Data (firstn w value)).
  assert (Hbs : length bs = w) by (unfold bs, w; apply length_copied; lia).
  assert (HD : (a + l + w <= length D)%nat) by (unfold a, l, w; lia).
  assert (Hshift :
            (if i <? s then store D (a + w) (load D a l) else D)
            = store D (a + w) (load D a l)).
  { destruct (Z.ltb_spec i s); [reflexivity|].
    assert (Hl : l = 0%nat) by (unfold l; replace (s - i) with 0 by lia; reflexivity).
    rewrite Hl. unfold load at 1. simpl firstn. now rewrite store_nil. }
  rewrite Hshift.
  rewrite cvector_remove_spec.
  - eexists. split; [reflexivity|]. simpl.
    split; [lia|]. split; [reflexivity|].
    unfold live_bytes. simpl. fold e s.
    replace (s + 1 - 1) with s by lia.
    replace (Z.to_nat (s * e)) with (a + l)%nat by (unfold a, l; lia).
    replace (Z.to_nat (i * e + e)) with (a + w)%nat by (unfold a, w; lia).
    fold a l.
    rewrite (shift_write_unshift D a w l bs Hbs HD).
    unfold D, grown. simpl.
    destruct (capacity (header b) <=? size (header b)); [|reflexivity].
    apply firstn_resize_bytes; unfold a, l; fold e s; lia.
  - repeat split; simpl; fold e s; try lia.
    rewrite !length_store; try lia.
    + rewrite length_load; lia.
    + rewrite length_store; rewrite ?length_load; lia.
  - simpl. fold s. lia.
Qed.

Lemma insert_then_remove_restores_witness :
  exists b',
    (vec <- cvector_insert (Some example_ints) 1 nine;; cvector_remove vec 1)
      = Ok (Some b') /\
    size (header b') = 3 /\
    element_size (header b') = 4 /\
    live_bytes b' = live_bytes example_ints.
Proof.
  apply (insert_then_remove_restores example_ints 1 nine); concrete.
Defined.

(** C2 as stated fails on a full vector: the push grows the block and the
    pop does not give the capacity back. *)
Lemma push_pop_keeps_grown_capacity :
  exists b',
    (vec <- cvector_push_back (Some example_full) [x09];;
     cvector_pop_back vec) = Ok (Some b') /\
    size (header example_full) <= capacity (header example_full) /\
    size (header b') = size (header example_full) /\
    capacity (header b') <> capacity (header example_full).
Proof. eexists. split; [vm_compute; reflexivity|]. concrete. Qed.

(** C2, amended. On a well-formed vector with room to grow, a push
    followed by a pop returns normally and restores the size.  The
    capacity is restored when the vector was not full; when [size] equals
    [capacity] the pair leaves the capacity at [max 1 (2 * capacity)]. *)
Theorem push_then_pop_restores_size (b : block) (value : list byte) :
  wf b -> room b ->
  element_size (header b) <= Z.of_nat (length value) ->
  exists b',
    (vec <- cvector_push_back (Some b) value;; cvector_pop_back vec)
      = Ok (Some b') /\
    size (header b') = size (header b) /\
    (size (header b) < capacity (header b) ->
     capacity (header b') = capacity (header b)) /\
    (size (header b) = capacity (header b) ->
     capacity (header b') = Z.max 1 (2 * capacity (header b))).
Proof.
  intros Hwf Hroom Hval.
  rewrite cvector_push_back_spec by assumption. cbn [bind].
  rewrite cvector_pop_back_spec. eexists. split; [reflexivity|]. simpl.
  pose proof Hwf as Hwf0. break_wf Hwf0. destruct Hroom as (Hlt & _).
  unfold grown_capacity in *.
  split; [|split].
  - replace (size (header b) + 1 - 1) with (size (header b)) by lia.
    apply to_size_t_small. lia.
  - intros Hfree.
    destruct (Z.leb_spec (capacity (header b)) (size (header b)));
      [lia | reflexivity].
  - intros Hfull.
    destruct (Z.leb_spec (capacity (header b)) (size (header b))); [|lia].
    apply next_grow_no_wrap; lia.
Qed.

Lemma push_then_pop_restores_size_witness :
  exists b',
    (vec <- cvector_push_back (Some example_ints) nine;; cvector_pop_back vec)
      = Ok (Some b') /\
    size (header b') = 3 /\
    (3 < 4 -> capacity (header b') = 4) /\
    (3 = 4 -> capacity (header b') = Z.max 1 (2 * 4)).
Proof.
  apply (push_then_pop_restores_size example_ints nine); concrete.
Defined.

(** C5. Starting from a well-formed vector of capacity 0, the capacities
    seen after each of [N] consecutive appends are the least powers of
    two that hold 1, 2, ..., [N] elements: 1, 2, 4, 4, 8, ...  And at any
    append that finds the vector full, the new capacity is
    [max 1 (2 * capacity)].  The block length [HEADER_SIZE + capacity *
    element_size] is assumed to stay a [size_t] throughout. *)
Theorem doubling_growth :
  (forall (b : block) (values : list (list byte)),
     wf b -> capacity (header b) = 0 ->
     Forall (fun v => element_size (header b) <= Z.of_nat (length v)) values ->
     2 * Z.of_nat (length values) < SIZE_MODULUS ->
     HEADER_SIZE + 2 * Z.of_nat (length values) * element_size (header b)
       < SIZE_MODULUS ->
     capacity_trace (Some b) values =
     Ok (map (fun j => pow2_ceiling (Z.of_nat j)) (seq 1 (length values)))) /\
  (forall (b : block) (value : list byte),
     wf b -> room b ->
     element_size (header b) <= Z.of_nat (length value) ->
     size (header b) = capacity (header b) ->
     exists b',
       cvector_push_back (Some b) value = Ok (Some b') /\
       capacity (header b') = Z.max 1 (2 * capacity (header b))).
Proof.
  split.
  - intros b values Hwf Hcap Hvals Hn Hfit.
    apply capacity_trace_from; try assumption.
    + pose proof Hwf as Hwf0. break_wf Hwf0. simpl. lia.
    + left. split; [reflexivity | assumption].
  - intros b value Hwf Hroom Hval Hfull.
    destruct (cvector_push_back_wf b value Hwf Hroom Hval)
      as (b' & Hpush & _ & _ & Hc' & _).
    exists b'. split; [assumption|]. rewrite Hc'.
    pose proof Hwf as Hwf0. break_wf Hwf0. destruct Hroom as (Hlt & _).
    unfold grown_capacity in *.
    destruct (Z.leb_spec (capacity (header b)) (size (header b))); [|lia].
    apply next_grow_no_wrap; lia.
Qed.

Lemma doubling_growth_witness :
  capacity_trace (Some example_empty) (repeat nine 9)
    = Ok [1; 2; 4; 4; 8; 8; 8; 8; 16] /\
  exists b',
    cvector_push_back (Some example_full) [x09] = Ok (Some b') /\
    capacity (header b') = 2.
Proof.
  split.
  - rewrite (proj1 doubling_growth example_empty (repeat nine 9)).
    + vm_compute. reflexivity.
    + concrete.
    + concrete.
    + repeat constructor; vm_compute; discriminate.
    + concrete.
    + concrete.
  - apply (proj2 doubling_growth example_full [x09]); concrete.
Defined.

(** C7 as stated fails for [cvector_grow]: it stores whatever capacity it
    is given, and nothing stops a request below the current size. *)
Lemma grow_below_size_breaks_invariant :
  header_ok example_full /\ size_le_capacity example_full /\
  contract (Grow 0) example_full /\
  exists b', run (Grow 0) (Some example_full) = Ok (Some b') /\
             ~ size_le_capacity b'.
Proof.
  split; [concrete|]. split; [concrete|]. split; [concrete|].
  eexists. split; [vm_compute; reflexivity|].
  vm_compute. intros H. now apply H.
Qed.

(** C7, amended. [size <= capacity] holds when [cvector_init] returns;
    it is kept by every operation on one vector that returns normally
    (reserve, grow, shrink-to-fit, push-back, pop-back, insert, remove,
    clear, resize, clone) when the caller meets the operation's contract
    and, for [cvector_grow], asks for a capacity of at least the current
    size; and [cvector_swap] leaves each handle with a vector that
    satisfies it. *)
Theorem size_le_capacity_preserved :
  (forall capacity0 element_size0 : Z,
     exists b, cvector_init capacity0 element_size0 = Ok (Some b) /\
               size_le_capacity b) /\
  (forall (op : operation) (b : block) vec',
     header_ok b -> size_le_capacity b -> precondition op b ->
     run op (Some b) = Ok vec' ->
     exists b', vec' = Some b' /\ size_le_capacity b') /\
  (forall (a : block) (other : option (option block)) r,
     size_le_capacity a ->
     match other with Some h => handle_ok h | None => True end ->
     cvector_swap (Some a) other = Ok r ->
     handle_ok (fst r) /\
     match snd r with Some h => handle_ok h | None => True end).
Proof.
  split; [|split].
  - intros c e. unfold cvector_init, malloc.
    rewrite Z.ltb_irrefl. simpl.
    eexists. split; [reflexivity|]. unfold size_le_capacity. simpl. lia.
  - exact run_preserves_size_le_capacity.
  - intros a other r Ha Ho Hswap.
    destruct other as [h|]; simpl in Hswap; inversion Hswap; simpl; auto.
Qed.

Lemma size_le_capacity_preserved_witness :
  (exists b', run (Resize 5 nine) (Some example_ints) = Ok (Some b') /\
              size_le_capacity b') /\
  (exists b', run (Insert 0 nine) (Some example_ints) = Ok (Some b') /\
              size_le_capacity b').
Proof.
  assert (Hok : header_ok example_ints) by concrete.
  assert (Hinv : size_le_capacity example_ints) by concrete.
  split.
  - assert (Hrun : exists v, run (Resize 5 nine) (Some example_ints) = Ok v)
      by (eexists; vm_compute; reflexivity).
    destruct Hrun as [v Hrun].
    destruct (proj1 (proj2 size_le_capacity_preserved)
                (Resize 5 nine) example_ints v Hok Hinv) as (b' & Hv & Hb');
      [concrete | exact Hrun |].
    exists b'. rewrite Hrun, Hv. split; [reflexivity | exact Hb'].
  - assert (Hrun : exists v, run (Insert 0 nine) (Some example_ints) = Ok v)
      by (eexists; vm_compute; reflexivity).
    destruct Hrun as [v Hrun].
    destruct (proj1 (proj2 size_le_capacity_preserved)
                (Insert 0 nine) example_ints v Hok Hinv) as (b' & Hv & Hb');
      [concrete | exact Hrun |].
    exists b'. rewrite Hrun, Hv. split; [reflexivity | exact Hb'].
Defined.

(** C1, as the code runs it.  Resizing the one-element vector [7] to
    three elements with fill value [9] returns a vector of size 2, not 3,
    and its first element is no longer 7: the size is reset to 0 and the
    loop appends [new_size - old_size] copies of the fill value over the
    old elements. *)
Theorem resize_grow_on_nonempty_vector :
  cvector_resize (Some example_full) 3 [x09] =
  Ok (Some (mk_block (mk_header 2 3 1) [Data x09; Data x09; Undef])).
Proof. vm_compute. reflexivity. Qed.

(** * Further properties of the operations *)

(** ** Results on well-formed blocks *)

Lemma block_eta (b : block) : mk_block (header b) (data b) = b.
Proof. now destruct b. Qed.

Lemma header_eta (h : cvector_header) :
  mk_header (size h) (capacity h) (element_size h) = h.
Proof. now destruct h. Qed.

Lemma cvector_grow_wf (b : block) (n : Z) :
  wf b -> fits b n -> size (header b) <= n ->
  exists b',
    cvector_grow (Some b) n = Ok (Some b') /\ wf b' /\
    header b' = mk_header (size (header b)) n (element_size (header b)) /\
    live_bytes b' = live_bytes b.
Proof.
  intros Hwf [[Hn0 Hn1] Hfit] Hsn. pose proof Hwf as Hwf0. break_wf Hwf0.
  rewrite cvector_grow_spec by lia.
  eexists. split; [reflexivity|].
  assert (0 <= size (header b) * element_size (header b))
    by (apply Z.mul_nonneg_nonneg; lia).
  assert (0 <= n * element_size (header b))
    by (apply Z.mul_nonneg_nonneg; lia).
  assert (size (header b) * element_size (header b)
          <= n * element_size (header b)) by nia.
  assert (size (header b) * element_size (header b)
          <= capacity (header b) * element_size (header b)) by nia.
  split; [|split; [reflexivity|]].
  - repeat split; simpl; try lia.
    rewrite length_resize_bytes. lia.
  - unfold live_bytes. simpl. apply firstn_resize_bytes; lia.
Qed.

Lemma cvector_reserve_wf (b : block) (n : Z) :
  wf b -> fits b n ->
  exists b',
    cvector_reserve (Some b) n = Ok (Some b') /\ wf b' /\
    header b' = mk_header (size (header b)) (Z.max (capacity (header b)) n)
                  (element_size (header b)) /\
    live_bytes b' = live_bytes b.
Proof.
  intros Hwf Hfit. pose proof Hwf as Hwf0. break_wf Hwf0.
  unfold cvector_reserve. simpl.
  destruct (Z.ltb_spec (capacity (header b)) n) as [Hlt|Hge].
  - destruct (cvector_grow_wf b n Hwf Hfit) as (b' & Hrun & Hwf' & Hh & Hl);
      [lia|].
    exists b'. rewrite Z.max_r by lia. auto.
  - exists b. rewrite Z.max_l by lia. rewrite header_eta. auto.
Qed.

Lemma cvector_push_back_free (b : block) (value : list byte) :
  wf b -> size (header b) < capacity (header b) ->
  element_size (header b) <= Z.of_nat (length value) ->
  exists b',
    cvector_push_back (Some b) value = Ok (Some b') /\ wf b' /\
    header b' = mk_header (size (header b) + 1) (capacity (header b))
                  (element_size (header b)) /\
    data b' = store (data b)
                (Z.to_nat (size (header b) * element_size (header b)))
                (stored b value).
Proof.
  intros Hwf Hfree Hval. pose proof Hwf as Hwf0. break_wf Hwf0.
  assert (Hg : grown_capacity b = capacity (header b)).
  { unfold grown_capacity.
    destruct (Z.leb_spec (capacity (header b)) (size (header b)));
      [lia | reflexivity]. }
  assert (Hroom : room b) by (split; rewrite Hg; lia).
  destruct (cvector_push_back_wf b value Hwf Hroom Hval)
    as (b' & Hpush & Hwf' & _).
  exists b'. split; [assumption|]. split; [assumption|].
  rewrite cvector_push_back_spec in Hpush by assumption.
  inversion Hpush. simpl. rewrite Hg. split; [reflexivity|].
  unfold stored.
  destruct (Z.leb_spec (capacity (header b)) (size (header b))); [lia|].
  now rewrite Z.mul_comm.
Qed.

Lemma cvector_insert_wf (b : block) (i : Z) (value : list byte) :
  wf b -> room b -> 0 <= i <= size (header b) ->
  element_size (header b) <= Z.of_nat (length value) ->
  exists b',
    cvector_insert (Some b) i value = Ok (Some b') /\ wf b' /\
    header b' = mk_header (size (header b) + 1) (grown_capacity b)
                  (element_size (header b)).
Proof.
  intros Hwf Hroom Hi Hval.
  destruct (make_room b Hwf Hroom) as (_ & Hwf' & Hlt).
  rewrite cvector_insert_spec by assumption.
  eexists. split; [reflexivity|]. split; [|reflexivity].
  destruct Hwf' as (Hsize' & Hes' & Hdata' & Halloc' & Hcap').
  simpl in Hlt, Hsize', Hes', Halloc', Hcap'.
  change (capacity (header (grown b))) with (grown_capacity b) in Hdata'.
  change (element_size (header (grown b)))
    with (element_size (header b)) in Hdata'.
  set (e := element_size (header b)) in *.
  set (s := size (header b)) in *.
  set (D := data (grown b)) in *.
  assert (0 <= i * e) by (apply Z.mul_nonneg_nonneg; lia).
  assert (0 <= (s - i) * e) by (apply Z.mul_nonneg_nonneg; lia).
  assert (i * e + (s - i) * e + e <= grown_capacity b * e) by nia.
  repeat split; simpl; fold e s; try lia.
  rewrite length_store.
  - destruct (i <? s); [|exact Hdata'].
    rewrite length_store; [exact Hdata'|].
    rewrite length_load; lia.
  - rewrite length_copied by lia.
    destruct (i <? s).
    + rewrite length_store; [lia|]. rewrite length_load; lia.
    + lia.
Qed.

Lemma cvector_remove_wf (b : block) (i : Z) :
  wf b -> 0 <= i < size (header b) ->
  exists b',
    cvector_remove (Some b) i = Ok (Some b') /\ wf b' /\
    header b' = mk_header (size (header b) - 1) (capacity (header b))
                  (element_size (header b)).
Proof.
  intros Hwf Hi. rewrite cvector_remove_spec by assumption.
  eexists. split; [reflexivity|]. split; [|reflexivity].
  break_wf Hwf.
  assert (0 <= i * element_size (header b))
    by (apply Z.mul_nonneg_nonneg; lia).
  assert (0 <= (size (header b) - 1 - i) * element_size (header b))
    by (apply Z.mul_nonneg_nonneg; lia).
  assert (i * element_size (header b) + element_size (header b)
          + (size (header b) - 1 - i) * element_size (header b)
          <= capacity (header b) * element_size (header b)) by nia.
  repeat split; simpl; try lia.
  rewrite length_store; [exact Hdata|].
  rewrite length_load; lia.
Qed.

Lemma cvector_clone_spec (b : block) :
  wf b -> cvector_clone (Some b) None = Ok (Some b).
Proof.
  intros Hwf. break_wf Hwf.
  assert (0 <= capacity (header b) * element_size (header b))
    by (apply Z.mul_nonneg_nonneg; lia).
  unfold cvector_clone. simpl. size_t_small. unfold malloc.
  destruct (Z.ltb_spec
              (HEADER_SIZE + capacity (header b) * element_size (header b))
              HEADER_SIZE); [lia|].
  simpl.
  destruct (Z.leb_spec
              (HEADER_SIZE + capacity (header b) * element_size (header b))
              (HEADER_SIZE + Z.of_nat (length (data b)))); [|lia].
  rewrite firstn_all2 by lia. now rewrite block_eta.
Qed.

(** ** The loops of [cvector_resize] *)

Lemma push_back_loop_fill (value : list byte) (k : nat) :
  forall b : block,
    wf b -> size (header b) + Z.of_nat k <= capacity (header b) ->
    element_size (header b) <= Z.of_nat (length value) ->
    exists b',
      push_back_loop k (Some b) value = Ok (Some b') /\ wf b' /\
      header b' = mk_header (size (header b) + Z.of_nat k)
                    (capacity (header b)) (element_size (header b)) /\
      firstn (Z.to_nat (size (header b) * element_size (header b))) (data b')
        = live_bytes b /\
      (forall j, size (header b) <= j < size (header b) + Z.of_nat k ->
                 slot b' j = stored b value).
Proof.
  induction k as [|k IH]; intros b Hwf Hroom Hval.
  - exists b. simpl. split; [reflexivity|]. split; [assumption|].
    split; [|split].
    + rewrite Z.add_0_r. symmetry. apply header_eta.
    + reflexivity.
    + intros j Hj. lia.
  - pose proof Hwf as Hwf0. break_wf Hwf0.
    destruct (cvector_push_back_free b value Hwf) as (b1 & Hpush & Hwf1 & Hh1 & Hd1);
      [lia | assumption |].
    assert (Hs1 : size (header b1) = size (header b) + 1) by now rewrite Hh1.
    assert (Hc1 : capacity (header b1) = capacity (header b)) by now rewrite Hh1.
    assert (He1 : element_size (header b1) = element_size (header b))
      by now rewrite Hh1.
    destruct (IH b1 Hwf1) as (b' & Hloop & Hwf' & Hh' & Hpre & Hfill);
      [rewrite Hs1, Hc1; lia | rewrite He1; assumption |].
    exists b'. simpl. rewrite Hpush. simpl. rewrite Hloop.
    rewrite Hs1, Hc1, He1 in Hh'. rewrite Hs1, He1 in Hpre.
    set (e := element_size (header b)) in *.
    set (s := size (header b)) in *.
    assert (Hse : 0 <= s * e) by (apply Z.mul_nonneg_nonneg; lia).
    assert (Hse1 : Z.to_nat ((s + 1) * e) = (Z.to_nat (s * e) + Z.to_nat e)%nat)
      by lia.
    assert (Hin : s * e + e <= capacity (header b) * e) by nia.
    assert (Hlen : length (stored b value) = Z.to_nat e)
      by (unfold stored; fold e; apply length_copied; lia).
    (* what the first append left in the block *)
    assert (Hpre1 : firstn (Z.to_nat (s * e)) (data b1)
                    = firstn (Z.to_nat (s * e)) (data b)).
    { rewrite Hd1. fold s e. apply firstn_store; lia. }
    assert (Hslot1 : load (data b1) (Z.to_nat (s * e)) (Z.to_nat e)
                     = stored b value).
    { rewrite Hd1. fold s e. apply load_store_back; lia. }
    split; [reflexivity|]. split; [assumption|]. split; [|split].
    + rewrite Hh'. f_equal. lia.
    + transitivity (firstn (Z.to_nat (s * e))
                      (firstn (Z.to_nat ((s + 1) * e)) (data b'))).
      { rewrite firstn_firstn. f_equal. lia. }
      rewrite Hpre. unfold live_bytes. rewrite Hs1, He1. fold s e.
      rewrite firstn_firstn.
      replace (Nat.min (Z.to_nat (s * e)) (Z.to_nat ((s + 1) * e)))
        with (Z.to_nat (s * e)) by lia.
      exact Hpre1.
    + intros j Hj. destruct (Z.eq_dec j s) as [->|Hne].
      * unfold slot. rewrite Hh'. simpl. 
        rewrite <- (load_firstn _ (Z.to_nat ((s + 1) * e))) by lia.
        rewrite Hpre. unfold live_bytes. rewrite Hs1, He1. fold s e.
        rewrite load_firstn by lia. exact Hslot1.
      * rewrite Hfill by (rewrite Hs1; lia).
        unfold stored. now rewrite He1.
Qed.

Lemma pop_back_loop_exact (k : nat) :
  forall b : block,
    Z.of_nat k <= size (header b) -> size (header b) < SIZE_MODULUS ->
    pop_back_loop k (Some b) =
    Ok (Some (mk_block
                (mk_header (size (header b) - Z.of_nat k)
                           (capacity (header b)) (element_size (header b)))
                (data b))).
Proof.
  induction k as [|k IH]; intros b Hk Hs.
  - simpl. rewrite Z.sub_0_r, header_eta, block_eta. reflexivity.
  - simpl. rewrite to_size_t_small by lia.
    rewrite IH by (simpl; lia). simpl. do 4 f_equal. lia.
Qed.

Lemma cvector_resize_grow_wf (b : block) (n : Z) (value : list byte) :
  wf b -> fits b n -> size (header b) < n ->
  element_size (header b) <= Z.of_nat (length value) ->
  exists b',
    cvector_resize (Some b) n value = Ok (Some b') /\ wf b' /\
    header b' = mk_header (n - size (header b))
                  (Z.max (capacity (header b)) n) (element_size (header b)) /\
    (forall j, 0 <= j < n - size (header b) -> slot b' j = stored b value).
Proof.
  intros Hwf Hfit Hlt Hval. pose proof Hwf as Hwf0. break_wf Hwf0.
  destruct (cvector_reserve_wf b n Hwf Hfit) as (b1 & Hres & Hwf1 & Hh1 & _).
  unfold cvector_resize.
  destruct (Z.ltb_spec (size (header b)) n); [|lia].
  rewrite Hres. cbn [bind]. simpl.
  set (b2 := mk_block (mk_header 0 (capacity (header b1))
                                 (element_size (header b1))) (data b1)).
  assert (Hc1 : capacity (header b1) = Z.max (capacity (header b)) n)
    by now rewrite Hh1.
  assert (He1 : element_size (header b1) = element_size (header b))
    by now rewrite Hh1.
  assert (Hwf2 : wf b2).
  { destruct Hwf1 as (H1 & H2 & H3 & H4 & H5).
    unfold b2. repeat split; simpl; try lia; assumption. }
  destruct (push_back_loop_fill value (Z.to_nat (n - size (header b))) b2 Hwf2)
    as (b' & Hloop & Hwf' & Hh' & _ & Hfill).
  - unfold b2. simpl. rewrite Hc1. lia.
  - unfold b2. simpl. now rewrite He1.
  - exists b'. split; [exact Hloop|]. split; [assumption|]. split.
    + rewrite Hh'. unfold b2. simpl. rewrite Hc1, He1. f_equal. lia.
    + intros j Hj. rewrite Hfill by (unfold b2; simpl; lia).
      unfold stored, b2. simpl. now rewrite He1.
Qed.

Lemma cvector_resize_shrink_spec (b : block) (n : Z) (value : list byte) :
  is_size_t (size (header b)) -> 0 <= n <= size (header b) ->
  cvector_resize (Some b) n value =
  Ok (Some (mk_block
              (mk_header n (capacity (header b)) (element_size (header b)))
              (data b))).
Proof.
  intros [Hs0 Hs1] Hn. unfold cvector_resize.
  destruct (Z.ltb_spec (size (header b)) n); [lia|].
  rewrite pop_back_loop_exact by lia. do 4 f_equal. lia.
Qed.

(** ** More facts about byte ranges *)

Lemma skipn_store (m : list memval) (off : nat) (bs : list memval) :
  (off + length bs <= length m)%nat ->
  skipn (off + length bs) (store m off bs) = skipn (off + length bs) m.
Proof.
  intros Hb. apply nth_error_ext. intros i.
  rewrite !nth_error_skipn, nth_error_store by assumption.
  destruct (Nat.ltb_spec (off + length bs + i) off); [lia|].
  destruct (Nat.ltb_spec (off + length bs + i) (off + length bs));
    [lia | reflexivity].
Qed.

Lemma load_zero (m : list memval) (off : nat) : load m off 0 = [].
Proof. reflexivity. Qed.

(** Moving [l] bytes up by [w] from offset [a] and writing [w] bytes at
    [a]: the bytes below [a] stay, the written bytes are read back at
    [a], and the moved bytes follow them. *)
Lemma shift_write (m : list memval) (a w l : nat) (bs : list memval) :
  length bs = w -> (a + l + w <= length m)%nat ->
  let m2 := store (store m (a + w) (load m a l)) a bs in
  firstn a m2 = firstn a m /\
  load m2 a w = bs /\
  load m2 (a + w) l = load m a l /\
  length m2 = length m.
Proof.
  intros Hbs Hlen m2.
  assert (Hl0 : length (load m a l) = l) by (apply length_load; lia).
  assert (Hm1 : length (store m (a + w) (load m a l)) = length m)
    by (apply length_store; lia).
  unfold m2. repeat split.
  - rewrite firstn_store by lia. apply firstn_store; lia.
  - apply load_store_back; lia.
  - rewrite load_store_other by lia. apply load_store_back; lia.
  - rewrite length_store; lia.
Qed.

Lemma grown_keeps_live_bytes (b : block) (k : nat) :
  wf b -> room b ->
  (k <= Z.to_nat (size (header b) * element_size (header b)))%nat ->
  firstn k (data (grown b)) = firstn k (data b).
Proof.
  intros Hwf (Hlt & Hfit) Hk. break_wf Hwf.
  unfold grown, grown_capacity in *. simpl.
  destruct (Z.leb_spec (capacity (header b)) (size (header b)));
    [|reflexivity].
  assert (size (header b) * element_size (header b)
          <= capacity (header b) * element_size (header b)) by nia.
  assert (size (header b) * element_size (header b)
          <= cvector_compute_next_grow (capacity (header b))
             * element_size (header b)) by nia.
  apply firstn_resize_bytes; lia.
Qed.

Lemma grown_data_length (b : block) :
  wf b -> room b ->
  Z.of_nat (length (data (grown b)))
  = grown_capacity b * element_size (header b).
Proof.
  intros Hwf Hroom.
  destruct (make_room b Hwf Hroom) as (_ & Hwf' & _).
  destruct Hwf' as (_ & _ & Hd & _). exact Hd.
Qed.

(** ** Creation, reservation and copying *)

(** [cvector_init] never reserves: its test [if (!vec)] is false for the
    block it has just filled in, so the vector starts with size 0 and
    capacity 0 whatever capacity was asked for, and the first append
    allocates room for exactly one element. *)
Theorem init_ignores_requested_capacity
  (capacity0 element_size0 : Z) (value : list byte) :
  is_size_t element_size0 ->
  HEADER_SIZE + element_size0 < SIZE_MODULUS ->
  element_size0 <= Z.of_nat (length value) ->
  exists b,
    cvector_init capacity0 element_size0 = Ok (Some b) /\
    header b = mk_header 0 0 element_size0 /\ data b = [] /\ wf b /\
    exists b',
      cvector_push_back (Some b) value = Ok (Some b') /\
      size (header b') = 1 /\ capacity (header b') = 1.
Proof.
  intros [He0 He1] Hfit Hval.
  unfold cvector_init, malloc. rewrite Z.ltb_irrefl. simpl.
  eexists. split; [reflexivity|]. simpl.
  split; [reflexivity|]. split; [reflexivity|].
  set (b := mk_block (mk_header 0 0 element_size0) _).
  pose proof SIZE_MODULUS_value as HM. pose proof HEADER_SIZE_value as HH.
  assert (Hwf : wf b) by (unfold b; repeat split; simpl; lia).
  assert (Hroom : room b).
  { unfold room, grown_capacity, b.
    cbn [header size capacity element_size].
    rewrite Z.leb_refl, next_grow_zero. lia. }
  split; [exact Hwf|].
  destruct (cvector_push_back_wf b value Hwf Hroom Hval)
    as (b' & Hpush & _ & Hs & Hc & _).
  exists b'. split; [exact Hpush|]. split; [exact Hs|].
  rewrite Hc. reflexivity.
Qed.

Lemma init_ignores_requested_capacity_witness :
  exists b,
    cvector_init 16 4 = Ok (Some b) /\
    header b = mk_header 0 0 4 /\ data b = [] /\ wf b /\
    exists b',
      cvector_push_back (Some b) nine = Ok (Some b') /\
      size (header b') = 1 /\ capacity (header b') = 1.
Proof. apply (init_ignores_requested_capacity 16 4 nine); concrete. Defined.

(** [cvector_reserve] never shrinks: on a well-formed vector it returns
    the very same block when the capacity already suffices, and
    otherwise a well-formed block of exactly the requested capacity; in
    both cases the size, the element width and the bytes of the stored
    elements are kept. *)
Theorem reserve_never_shrinks (b : block) (n : Z) :
  wf b -> fits b n ->
  exists b',
    cvector_reserve (Some b) n = Ok (Some b') /\ wf b' /\
    capacity (header b') = Z.max (capacity (header b)) n /\
    size (header b') = size (header b) /\
    element_size (header b') = element_size (header b) /\
    live_bytes b' = live_bytes b /\
    (n <= capacity (header b) -> b' = b).
Proof.
  intros Hwf Hfit.
  destruct (cvector_reserve_wf b n Hwf Hfit) as (b' & Hrun & Hwf' & Hh & Hl).
  exists b'. split; [exact Hrun|]. split; [exact Hwf'|].
  rewrite Hh. simpl. do 3 (split; [reflexivity|]). split; [exact Hl|].
  intros Hle. unfold cvector_reserve in Hrun. simpl in Hrun.
  destruct (Z.ltb_spec (capacity (header b)) n); [lia|].
  now inversion Hrun.
Qed.

Lemma reserve_never_shrinks_witness :
  (exists b',
     cvector_reserve (Some example_ints) 10 = Ok (Some b') /\ wf b' /\
     capacity (header b') = 10 /\ size (header b') = 3 /\
     live_bytes b' = live_bytes example_ints) /\
  cvector_reserve (Some example_ints) 2 = Ok (Some example_ints).
Proof.
  split.
  - destruct (reserve_never_shrinks example_ints 10)
      as (b' & Hrun & Hwf & Hc & Hs & _ & Hl & _); [concrete | concrete |].
    exists b'. split; [exact Hrun|]. split; [exact Hwf|].
    split; [exact Hc|]. split; [exact Hs | exact Hl].
  - destruct (reserve_never_shrinks example_ints 2)
      as (b' & Hrun & _ & _ & _ & _ & _ & Hsame); [concrete | concrete |].
    rewrite Hrun, Hsame; [reflexivity | concrete].
Defined.

(** [cvector_clone] copies the whole block of a well-formed source,
    header and every byte up to the capacity, unused slots included; it
    aborts on a destination handle that is not null and on a null
    source. *)
Theorem clone_copies_whole_block :
  (forall b, wf b -> cvector_clone (Some b) None = Ok (Some b)) /\
  (forall b d, cvector_clone (Some b) (Some d) = Fault AssertionFailure) /\
  (forall to_, cvector_clone None to_ = Fault AssertionFailure).
Proof.
  split; [exact cvector_clone_spec|]. split; reflexivity.
Qed.

Lemma clone_copies_whole_block_witness :
  cvector_clone (Some example_ints) None = Ok (Some example_ints).
Proof. apply (proj1 clone_copies_whole_block). concrete. Defined.

(** ** Null handles and rejected indices *)

(** [cvector_remove] is the one operation that accepts a null handle,
    and it ignores an index at or beyond [size]: in both cases it
    returns without touching anything. *)
Theorem remove_ignores_null_and_bad_index :
  (forall i, cvector_remove None i = Ok None) /\
  (forall b i, size (header b) <= i ->
               cvector_remove (Some b) i = Ok (Some b)).
Proof.
  split; [reflexivity|].
  intros b i Hi. unfold cvector_remove. simpl.
  destruct (Z.leb_spec (size (header b)) i); [reflexivity | lia].
Qed.

Lemma remove_ignores_null_and_bad_index_witness :
  cvector_remove (Some example_ints) 3 = Ok (Some example_ints) /\
  cvector_remove (Some example_empty) 0 = Ok (Some example_empty).
Proof.
  split; apply (proj2 remove_ignores_null_and_bad_index); concrete.
Defined.

(** Every other operation stops on a null handle: those that go through
    an accessor or an [assert] abort, and [cvector_resize], which reads
    the size field directly, dereferences the null pointer. *)
Theorem null_handle_faults :
  cvector_size None = Fault AssertionFailure /\
  cvector_capacity None = Fault AssertionFailure /\
  cvector_element_size None = Fault AssertionFailure /\
  cvector_empty None = Fault AssertionFailure /\
  cvector_free None = Fault AssertionFailure /\
  cvector_clear None = Fault AssertionFailure /\
  cvector_pop_back None = Fault AssertionFailure /\
  cvector_shrink_to_fit None = Fault AssertionFailure /\
  cvector_front None = Fault AssertionFailure /\
  cvector_back None = Fault AssertionFailure /\
  (forall n, cvector_reserve None n = Fault AssertionFailure) /\
  (forall n, cvector_grow None n = Fault AssertionFailure) /\
  (forall i, cvector_get None i = Fault AssertionFailure) /\
  (forall v, cvector_push_back None v = Fault AssertionFailure) /\
  (forall i v, cvector_insert None i v = Fault AssertionFailure) /\
  (forall i v, cvector_set None i v = Fault AssertionFailure) /\
  (forall o, cvector_swap None o = Fault AssertionFailure) /\
  (forall n v, cvector_resize None n v = Fault UndefinedBehaviour).
Proof. repeat split. Qed.

(** ** Pointers to the ends *)

(** [cvector_front] and [cvector_back] return [NULL] on an empty vector;
    on a well-formed non-empty one they return the pointers to slot 0
    and to slot [size - 1]. *)
Theorem front_back_pointers (b : block) :
  (size (header b) = 0 ->
   cvector_front (Some b) = Ok None /\ cvector_back (Some b) = Ok None) /\
  (wf b -> 0 < size (header b) ->
   cvector_front (Some b) = Ok (Some HEADER_SIZE) /\
   cvector_back (Some b) =
     Ok (Some (HEADER_SIZE
               + (size (header b) - 1) * element_size (header b)))).
Proof.
  split.
  - intros Hz. unfold cvector_front, cvector_back. simpl.
    rewrite Hz. simpl. split; reflexivity.
  - intros Hwf Hpos. break_wf Hwf.
    unfold cvector_front, cvector_back, cvector_get. simpl.
    destruct (Z.ltb_spec 0 (size (header b))); [|lia]. simpl.
    destruct (Z.leb_spec (size (header b)) 0); [lia|]. simpl.
    assert (0 <= (size (header b) - 1) * element_size (header b))
      by (apply Z.mul_nonneg_nonneg; lia).
    assert ((size (header b) - 1) * element_size (header b)
            <= capacity (header b) * element_size (header b)) by nia.
    size_t_small.
    destruct (Z.ltb_spec (size (header b) - 1) 0); [lia|].
    destruct (Z.leb_spec (size (header b)) (size (header b) - 1)); [lia|].
    simpl. rewrite Z.add_0_r. split; reflexivity.
Qed.

Lemma front_back_pointers_witness :
  (cvector_front (Some example_empty) = Ok None /\
   cvector_back (Some example_empty) = Ok None) /\
  cvector_front (Some example_ints) = Ok (Some HEADER_SIZE) /\
  cvector_back (Some example_ints) = Ok (Some (HEADER_SIZE + (3 - 1) * 4)).
Proof.
  split.
  - apply (proj1 (front_back_pointers example_empty)). concrete.
  - apply (proj2 (front_back_pointers example_ints)); concrete.
Defined.

(** ** Growth at the top of the range *)

(** Doubling is done in [size_t]: from a capacity of at least half the
    range, [cvector_compute_next_grow] wraps around and returns a value
    smaller than the capacity it was given. *)
Theorem next_grow_wraps_at_half_range (c : Z) :
  is_size_t c -> SIZE_MODULUS <= 2 * c ->
  cvector_compute_next_grow c = 2 * c - SIZE_MODULUS /\
  cvector_compute_next_grow c < c.
Proof.
  intros [Hc0 Hc1] Hhalf. pose proof SIZE_MODULUS_value as HM.
  unfold cvector_compute_next_grow.
  destruct (Z.eqb_spec c 0) as [->|_]; [lia|].
  rewrite Z.shiftl_mul_pow2 by lia. change (2 ^ 1) with 2.
  assert (E : to_size_t (c * 2) = 2 * c - SIZE_MODULUS).
  { unfold to_size_t. symmetry.
    apply Z.mod_unique_pos with (q := 1); lia. }
  rewrite E. lia.
Qed.

Lemma next_grow_wraps_at_half_range_witness :
  cvector_compute_next_grow (2 ^ 63) = 2 * 2 ^ 63 - SIZE_MODULUS /\
  cvector_compute_next_grow (2 ^ 63) < 2 ^ 63.
Proof. apply (next_grow_wraps_at_half_range (2 ^ 63)); concrete. Defined.

(** ** What the element operations store *)

(** [cvector_push_back] on a well-formed vector with room to grow writes
    the value into the slot after the last element and leaves the bytes
    of the stored elements alone; [cvector_back] then points at the new
    element. *)
Theorem push_back_appends (b : block) (value : list byte) :
  wf b -> room b ->
  element_size (header b) <= Z.of_nat (length value) ->
  exists b',
    cvector_push_back (Some b) value = Ok (Some b') /\
    size (header b') = size (header b) + 1 /\
    slot b' (size (header b)) = stored b value /\
    firstn (Z.to_nat (size (header b) * element_size (header b))) (data b')
      = live_bytes b /\
    cvector_back (Some b') =
      Ok (Some (HEADER_SIZE + size (header b) * element_size (header b))).
Proof.
  intros Hwf Hroom Hval.
  pose proof (grown_data_length b Hwf Hroom) as Hlen.
  pose proof (grown_keeps_live_bytes b _ Hwf Hroom (Nat.le_refl _)) as Hkeep.
  rewrite cvector_push_back_spec by assumption.
  eexists. split; [reflexivity|].
  pose proof Hwf as Hwf0. break_wf Hwf0. destruct Hroom as (Hlt & Hfit).
  set (D := data (grown b)) in *.
  set (e := element_size (header b)) in *.
  set (s := size (header b)) in *.
  assert (Hse : 0 <= s * e) by (apply Z.mul_nonneg_nonneg; lia).
  assert (Hin : s * e + e <= grown_capacity b * e) by nia.
  assert (Hbs : length (stored b value) = Z.to_nat e)
    by (unfold stored; fold e; apply length_copied; lia).
  replace (e * s) with (s * e) by lia.
  change (map Data (firstn (Z.to_nat e) value)) with (stored b value).
  split; [reflexivity|]. split; [|split].
  - unfold slot. simpl. fold e. apply load_store_back; lia.
  - simpl. rewrite firstn_store by lia. exact Hkeep.
  - unfold cvector_back, cvector_get. simpl. fold e s.
    destruct (Z.ltb_spec 0 (s + 1)); [|lia]. simpl.
    replace (s + 1 - 1) with s by lia.
    size_t_small.
    destruct (Z.ltb_spec s 0); [lia|].
    destruct (Z.leb_spec (s + 1) s); [lia|]. reflexivity.
Qed.

Lemma push_back_appends_witness :
  exists b',
    cvector_push_back (Some example_ints) nine = Ok (Some b') /\
    size (header b') = 4 /\
    slot b' 3 = stored example_ints nine /\
    firstn (Z.to_nat (3 * 4)) (data b') = live_bytes example_ints /\
    cvector_back (Some b') = Ok (Some (HEADER_SIZE + 3 * 4)).
Proof. apply (push_back_appends example_ints nine); concrete. Defined.

(** [cvector_pop_back] only lowers the size: after a push and a pop the
    bytes of the stored elements are as before and the popped value is
    still in its slot, now past the end. *)
Theorem pop_back_does_not_erase (b : block) (value : list byte) :
  wf b -> room b ->
  element_size (header b) <= Z.of_nat (length value) ->
  exists b',
    (vec <- cvector_push_back (Some b) value;; cvector_pop_back vec)
      = Ok (Some b') /\
    size (header b') = size (header b) /\
    live_bytes b' = live_bytes b /\
    slot b' (size (header b)) = stored b value.
Proof.
  intros Hwf Hroom Hval.
  pose proof (grown_data_length b Hwf Hroom) as Hlen.
  pose proof (grown_keeps_live_bytes b _ Hwf Hroom (Nat.le_refl _)) as Hkeep.
  rewrite cvector_push_back_spec by assumption. cbn [bind].
  rewrite cvector_pop_back_spec.
  eexists. split; [reflexivity|].
  pose proof Hwf as Hwf0. break_wf Hwf0. destruct Hroom as (Hlt & Hfit).
  set (D := data (grown b)) in *.
  set (e := element_size (header b)) in *.
  set (s := size (header b)) in *.
  assert (Hse : 0 <= s * e) by (apply Z.mul_nonneg_nonneg; lia).
  assert (Hin : s * e + e <= grown_capacity b * e) by nia.
  assert (Hbs : length (stored b value) = Z.to_nat e)
    by (unfold stored; fold e; apply length_copied; lia).
  replace (e * s) with (s * e) by lia.
  change (map Data (firstn (Z.to_nat e) value)) with (stored b value).
  assert (Hsz : to_size_t (s + 1 - 1) = s)
    by (replace (s + 1 - 1) with s by lia; apply to_size_t_small; lia).
  split; [|split].
  - simpl. exact Hsz.
  - unfold live_bytes at 1. simpl. rewrite Hsz. fold e.
    rewrite firstn_store by lia. exact Hkeep.
  - unfold slot. simpl. fold e. apply load_store_back; lia.
Qed.

Lemma pop_back_does_not_erase_witness :
  exists b',
    (vec <- cvector_push_back (Some example_ints) nine;; cvector_pop_back vec)
      = Ok (Some b') /\
    size (header b') = 3 /\
    live_bytes b' = live_bytes example_ints /\
    slot b' 3 = stored example_ints nine.
Proof. apply (pop_back_does_not_erase example_ints nine); concrete. Defined.

(** [cvector_set] checks the index against nothing: on a well-formed
    vector any slot below the capacity, live or not, is overwritten with
    the value while the header and every other byte of the block stay
    as they were; a slot at or beyond the capacity is outside the
    block. *)
Theorem set_overwrites_any_allocated_slot
  (b : block) (i : Z) (value : list byte) :
  wf b -> 0 <= i ->
  element_size (header b) <= Z.of_nat (length value) ->
  (i < capacity (header b) ->
   exists b',
     cvector_set (Some b) i value = Ok (Some b') /\
     header b' = header b /\
     slot b' i = stored b value /\
     bytes_before b' i = bytes_before b i /\
     skipn (Z.to_nat ((i + 1) * element_size (header b))) (data b')
       = skipn (Z.to_nat ((i + 1) * element_size (header b))) (data b)) /\
  (capacity (header b) <= i -> 0 < element_size (header b) ->
   element_size (header b) * i < SIZE_MODULUS ->
   cvector_set (Some b) i value = Fault UndefinedBehaviour).
Proof.
  intros Hwf Hi Hval. break_wf Hwf.
  set (e := element_size (header b)) in *.
  assert (Hie : 0 <= i * e) by (apply Z.mul_nonneg_nonneg; lia).
  split.
  - intros Hbelow.
    assert (Hin : i * e + e <= capacity (header b) * e) by nia.
    unfold cvector_set. simpl. fold e. size_t_small.
    rewrite memcpy_in_block by (simpl; lia).
    eexists. split; [reflexivity|]. simpl.
    assert (Hbs : length (stored b value) = Z.to_nat e)
      by (unfold stored; fold e; apply length_copied; lia).
    change (map Data (firstn (Z.to_nat e) value)) with (stored b value).
    replace (e * i) with (i * e) by lia.
    split; [reflexivity|]. split; [|split].
    + unfold slot. simpl. fold e. apply load_store_back; lia.
    + unfold bytes_before. simpl. fold e. apply firstn_store; lia.
    + replace (Z.to_nat ((i + 1) * e))
        with (Z.to_nat (i * e) + length (stored b value))%nat by lia.
      apply skipn_store. lia.
  - intros Hout Hpos Hsmall.
    assert (Hoff : capacity (header b) * e <= e * i) by nia.
    unfold cvector_set. simpl. fold e. size_t_small.
    unfold memcpy, in_block. simpl.
    destruct (Z.leb_spec (HEADER_SIZE + e * i + e)
                (HEADER_SIZE + Z.of_nat (length (data b)))); [lia|].
    rewrite andb_false_r. reflexivity.
Qed.

Lemma set_overwrites_any_allocated_slot_witness :
  (exists b',
     cvector_set (Some example_ints) 3 nine = Ok (Some b') /\
     header b' = header example_ints /\
     slot b' 3 = stored example_ints nine /\
     bytes_before b' 3 = bytes_before example_ints 3) /\
  cvector_set (Some example_ints) 4 nine = Fault UndefinedBehaviour.
Proof.
  assert (Hwf : wf example_ints) by concrete.
  assert (H3 : 0 <= 3) by concrete.
  assert (H4 : 0 <= 4) by concrete.
  assert (Hv : element_size (header example_ints) <= Z.of_nat (length nine))
    by concrete.
  split.
  - destruct (proj1 (set_overwrites_any_allocated_slot
                       example_ints 3 nine Hwf H3 Hv))
      as (b' & Hrun & Hh & Hs & Hb & _); [concrete|].
    exists b'. split; [exact Hrun|]. split; [exact Hh|].
    split; [exact Hs | exact Hb].
  - apply (proj2 (set_overwrites_any_allocated_slot
                    example_ints 4 nine Hwf H4 Hv)); concrete.
Defined.

(** ** Shifting *)

(** [cvector_insert] at an index [0 <= i <= size] of a well-formed
    vector with room to grow keeps the elements before [i], puts the
    value in slot [i] and moves the elements that were at [i .. size - 1]
    one slot up, in order. *)
Theorem insert_shifts_tail_up (b : block) (i : Z) (value : list byte) :
  wf b -> room b -> 0 <= i <= size (header b) ->
  element_size (header b) <= Z.of_nat (length value) ->
  exists b',
    cvector_insert (Some b) i value = Ok (Some b') /\
    size (header b') = size (header b) + 1 /\
    bytes_before b' i = bytes_before b i /\
    slot b' i = stored b value /\
    slots b' (i + 1) (size (header b) - i) = slots b i (size (header b) - i).
Proof.
  intros Hwf Hroom Hi Hval.
  pose proof (grown_data_length b Hwf Hroom) as Hlen.
  pose proof (grown_keeps_live_bytes b _ Hwf Hroom (Nat.le_refl _)) as Hkeep.
  rewrite cvector_insert_spec by assumption.
  eexists. split; [reflexivity|].
  pose proof Hwf as Hwf0. break_wf Hwf0. destruct Hroom as (Hlt & Hfit).
  set (D := data (grown b)) in *.
  set (e := element_size (header b)) in *.
  set (s := size (header b)) in *.
  assert (He0 : 0 <= i * e) by (apply Z.mul_nonneg_nonneg; lia).
  assert (Hl0 : 0 <= (s - i) * e) by (apply Z.mul_nonneg_nonneg; lia).
  assert (Hin : i * e + (s - i) * e + e <= grown_capacity b * e) by nia.
  assert (Hse : s * e = i * e + (s - i) * e) by lia.
  set (a := Z.to_nat (i * e)).
  set (w := Z.to_nat e).
  set (l := Z.to_nat ((s - i) * e)).
  replace (Z.to_nat (i * e + e)) with (a + w)%nat by (unfold a, w; lia).
  replace (Z.to_nat (e * i)) with a by (unfold a; f_equal; lia).
  fold w.
  change (map Data (firstn w value)) with (stored b value).
  assert (Hbs : length (stored b value) = w)
    by (unfold stored, w; fold e; apply length_copied; lia).
  assert (HD : (a + l + w <= length D)%nat) by (unfold a, l, w; lia).
  assert (Hshift :
            (if i <? s then store D (a + w) (load D a l) else D)
            = store D (a + w) (load D a l)).
  { destruct (Z.ltb_spec i s); [reflexivity|].
    assert (Hl : l = 0%nat)
      by (unfold l; replace (s - i) with 0 by lia; reflexivity).
    rewrite Hl, load_zero. now rewrite store_nil. }
  rewrite Hshift.
  destruct (shift_write D a w l (stored b value) Hbs HD)
    as (Hbefore & Hat & Hafter & _).
  (* the live bytes of [b] are a prefix of [D] *)
  assert (HDa : firstn a D = firstn a (data b)).
  { apply grown_keeps_live_bytes; try assumption; [now split|].
    fold e s. unfold a. lia. }
  assert (HDl : load D a l = load (data b) a l).
  { rewrite <- (load_firstn D (Z.to_nat (s * e))) by (unfold a, l; lia).
    rewrite Hkeep. apply load_firstn. unfold a, l. lia. }
  simpl. split; [reflexivity|]. split; [|split].
  - unfold bytes_before. simpl. fold e a. now rewrite Hbefore.
  - unfold slot. simpl. fold e a w. exact Hat.
  - unfold slots. simpl. fold e s l a.
    replace (Z.to_nat ((i + 1) * e)) with (a + w)%nat by (unfold a, w; lia).
    now rewrite Hafter.
Qed.

Lemma insert_shifts_tail_up_witness :
  exists b',
    cvector_insert (Some example_ints) 1 nine = Ok (Some b') /\
    size (header b') = 4 /\
    bytes_before b' 1 = bytes_before example_ints 1 /\
    slot b' 1 = stored example_ints nine /\
    slots b' 2 2 = slots example_ints 1 2.
Proof. apply (insert_shifts_tail_up example_ints 1 nine); concrete. Defined.

(** [cvector_remove] at an index below [size] moves the elements that
    followed the removed one down by one slot, in order, so the stored
    elements afterwards are those before the index followed by those
    after it. *)
Theorem remove_shifts_tail_down (b : block) (i : Z) :
  wf b -> 0 <= i < size (header b) ->
  exists b',
    cvector_remove (Some b) i = Ok (Some b') /\
    slots b' i (size (header b) - 1 - i)
      = slots b (i + 1) (size (header b) - 1 - i) /\
    live_bytes b'
      = bytes_before b i ++ slots b (i + 1) (size (header b) - 1 - i).
Proof.
  intros Hwf Hi. rewrite cvector_remove_spec by assumption.
  eexists. split; [reflexivity|]. break_wf Hwf.
  set (e := element_size (header b)) in *.
  set (s := size (header b)) in *.
  assert (He0 : 0 <= i * e) by (apply Z.mul_nonneg_nonneg; lia).
  assert (Hl0 : 0 <= (s - 1 - i) * e) by (apply Z.mul_nonneg_nonneg; lia).
  assert (Hin : i * e + e + (s - 1 - i) * e <= capacity (header b) * e)
    by nia.
  set (a := Z.to_nat (i * e)).
  set (l := Z.to_nat ((s - 1 - i) * e)).
  assert (Hnext : Z.to_nat ((i + 1) * e) = Z.to_nat (i * e + e))
    by (f_equal; lia).
  assert (Hlen : length (load (data b) (Z.to_nat (i * e + e)) l) = l)
    by (apply length_load; unfold l; lia).
  assert (Hat : load (store (data b) a (load (data b) (Z.to_nat (i * e + e)) l))
                     a l
                = load (data b) (Z.to_nat (i * e + e)) l)
    by (apply load_store_back; unfold a, l in *; lia).
  split.
  - unfold slots. simpl. fold e a l. rewrite Hnext. exact Hat.
  - unfold live_bytes, bytes_before, slots. simpl. fold e s a l.
    replace (Z.to_nat ((s - 1) * e)) with (a + l)%nat by (unfold a, l; lia).
    rewrite firstn_split_load, Hat, Hnext. f_equal.
    apply firstn_store; unfold a, l in *; lia.
Qed.

Lemma remove_shifts_tail_down_witness :
  exists b',
    cvector_remove (Some example_ints) 0 = Ok (Some b') /\
    slots b' 0 2 = slots example_ints 1 2 /\
    live_bytes b' = bytes_before example_ints 0 ++ slots example_ints 1 2.
Proof. apply (remove_shifts_tail_down example_ints 0); concrete. Defined.

(** Removing the last element of a well-formed vector is exactly
    [cvector_pop_back]: no byte is moved and only the size changes. *)
Theorem remove_last_is_pop_back (b : block) :
  wf b -> 0 < size (header b) ->
  cvector_remove (Some b) (size (header b) - 1) = cvector_pop_back (Some b).
Proof.
  intros Hwf Hpos.
  rewrite cvector_remove_spec by (try assumption; lia).
  rewrite cvector_pop_back_spec. break_wf Hwf.
  rewrite to_size_t_small by lia.
  replace (size (header b) - 1 - (size (header b) - 1)) with 0 by lia.
  rewrite Z.mul_0_l. change (Z.to_nat 0) with 0%nat.
  now rewrite load_zero, store_nil.
Qed.

Lemma remove_last_is_pop_back_witness :
  cvector_remove (Some example_ints) (3 - 1) = cvector_pop_back (Some example_ints).
Proof. apply (remove_last_is_pop_back example_ints); concrete. Defined.

(** Inserting at index [size] is exactly [cvector_push_back]. *)
Theorem insert_at_size_is_push_back (b : block) (value : list byte) :
  wf b -> room b ->
  element_size (header b) <= Z.of_nat (length value) ->
  cvector_insert (Some b) (size (header b)) value
  = cvector_push_back (Some b) value.
Proof.
  intros Hwf Hroom Hval.
  rewrite cvector_push_back_spec by assumption.
  rewrite cvector_insert_spec; try assumption.
  - rewrite Z.ltb_irrefl. reflexivity.
  - break_wf Hwf. lia.
Qed.

Lemma insert_at_size_is_push_back_witness :
  cvector_insert (Some example_full) 1 [x09]
  = cvector_push_back (Some example_full) [x09].
Proof. apply (insert_at_size_is_push_back example_full [x09]); concrete. Defined.

(** [cvector_insert] does not check its index against [size].  With
    [size < index] still inside the grown block, the call returns
    normally and raises the size by one, but nothing is shifted: the
    value is written to slot [index], outside the elements, and the
    element that becomes live is whatever the block held in slot
    [size]. *)
Theorem insert_past_end_leaves_gap (b : block) (i : Z) (value : list byte) :
  wf b -> room b -> size (header b) < i < grown_capacity b ->
  element_size (header b) <= Z.of_nat (length value) ->
  exists b',
    cvector_insert (Some b) i value = Ok (Some b') /\
    size (header b') = size (header b) + 1 /\
    slot b' i = stored b value /\
    live_bytes b' =
      firstn (Z.to_nat ((size (header b) + 1) * element_size (header b)))
             (data (grown b)).
Proof.
  intros Hwf Hroom Hi Hval.
  pose proof (grown_data_length b Hwf Hroom) as Hlen.
  destruct (make_room b Hwf Hroom) as (Hgrow & (_ & _ & _ & _ & Hgc) & _).
  simpl in Hgc.
  unfold cvector_insert. simpl. rewrite Hgrow.
  pose proof Hwf as Hwf0. break_wf Hwf0. destruct Hroom as (Hlt & Hfit).
  assert (Hsg : size (header (grown b)) = size (header b)) by reflexivity.
  assert (Heg : element_size (header (grown b)) = element_size (header b))
    by reflexivity.
  remember (grown b) as g eqn:Hg.
  set (e := element_size (header b)) in *.
  set (s := size (header b)) in *.
  assert (He0 : 0 <= e * i) by (apply Z.mul_nonneg_nonneg; lia).
  assert (Hin : e * i + e <= grown_capacity b * e) by nia.
  assert (Hse : (s + 1) * e <= e * i) by nia.
  assert (Hs0 : 0 <= (s + 1) * e) by (apply Z.mul_nonneg_nonneg; lia).
  simpl. rewrite Hsg, Heg.
  destruct (Z.ltb_spec i s); [lia|]. simpl.
  size_t_small.
  rewrite memcpy_in_block by lia.
  simpl. size_t_small.
  eexists. split; [reflexivity|]. simpl. rewrite Heg.
  change (map Data (firstn (Z.to_nat e) value)) with (stored b value).
  assert (Hbs : length (stored b value) = Z.to_nat e)
    by (unfold stored; fold e; apply length_copied; lia).
  split; [reflexivity|]. split.
  - unfold slot. simpl. rewrite ?Heg.
    replace (i * e) with (e * i) by lia.
    apply load_store_back; lia.
  - unfold live_bytes. simpl. rewrite ?Heg.
    rewrite firstn_store by lia. now subst g.
Qed.

Lemma insert_past_end_leaves_gap_witness :
  exists b',
    cvector_insert (Some example_bytes) 2 [x09] = Ok (Some b') /\
    size (header b') = 2 /\
    slot b' 2 = [Data x09] /\
    live_bytes b' = [Data x07; Undef].
Proof. apply (insert_past_end_leaves_gap example_bytes 2 [x09]); concrete. Defined.

(** ** Clearing and resizing *)

(** [cvector_clear] only sets the size to 0: capacity, element width and
    every byte of the block are kept, so the next append reuses the
    storage without reallocating and lands in slot 0. *)
Theorem clear_keeps_storage (b : block) (value : list byte) :
  wf b -> 0 < capacity (header b) ->
  element_size (header b) <= Z.of_nat (length value) ->
  cvector_clear (Some b) =
    Ok (Some (mk_block (mk_header 0 (capacity (header b))
                                  (element_size (header b))) (data b))) /\
  exists b',
    (vec <- cvector_clear (Some b);; cvector_push_back vec value)
      = Ok (Some b') /\
    size (header b') = 1 /\
    capacity (header b') = capacity (header b) /\
    length (data b') = length (data b) /\
    slot b' 0 = stored b value.
Proof.
  intros Hwf Hpos Hval. split; [reflexivity|].
  pose proof Hwf as Hwf0. break_wf Hwf0.
  set (b0 := mk_block (mk_header 0 (capacity (header b))
                                 (element_size (header b))) (data b)).
  assert (Hwf0 : wf b0) by (unfold b0; repeat split; simpl; lia).
  destruct (cvector_push_back_free b0 value Hwf0)
    as (b' & Hpush & Hwf' & Hh & Hd);
    [unfold b0; simpl; lia | unfold b0; simpl; lia |].
  exists b'. split; [exact Hpush|].
  rewrite Hh, Hd. unfold b0. simpl.
  assert (Hbs : length (stored b value)
                = Z.to_nat (element_size (header b)))
    by (unfold stored; apply length_copied; lia).
  assert (element_size (header b)
          <= capacity (header b) * element_size (header b)) by nia.
  change (stored {| header := _; data := data b |} value)
    with (stored b value).
  repeat split.
  - apply length_store. lia.
  - unfold slot. rewrite Hh, Hd. simpl.
    change (stored {| header := _; data := data b |} value)
      with (stored b value).
    apply load_store_back; lia.
Qed.

Lemma clear_keeps_storage_witness :
  cvector_clear (Some example_ints) =
    Ok (Some (mk_block (mk_header 0 4 4) (data example_ints))) /\
  exists b',
    (vec <- cvector_clear (Some example_ints);; cvector_push_back vec nine)
      = Ok (Some b') /\
    size (header b') = 1 /\ capacity (header b') = 4 /\
    length (data b') = length (data example_ints) /\
    slot b' 0 = stored example_ints nine.
Proof. apply (clear_keeps_storage example_ints nine); concrete. Defined.

(** [cvector_resize] to a size not above the current one only lowers the
    size field: capacity, element width and every byte of the block are
    kept, and a resize to the current size returns the same block. *)
Theorem resize_down_truncates (b : block) (n : Z) (value : list byte) :
  is_size_t (size (header b)) -> 0 <= n <= size (header b) ->
  exists b',
    cvector_resize (Some b) n value = Ok (Some b') /\
    header b' = mk_header n (capacity (header b)) (element_size (header b)) /\
    data b' = data b /\
    (n = size (header b) -> b' = b).
Proof.
  intros Hs Hn. rewrite cvector_resize_shrink_spec by assumption.
  eexists. split; [reflexivity|]. simpl. repeat split.
  intros ->. now rewrite header_eta, block_eta.
Qed.

Lemma resize_down_truncates_witness :
  (exists b',
     cvector_resize (Some example_ints) 1 nine = Ok (Some b') /\
     header b' = mk_header 1 4 4 /\ data b' = data example_ints) /\
  cvector_resize (Some example_ints) 3 nine = Ok (Some example_ints).
Proof.
  split.
  - destruct (resize_down_truncates example_ints 1 nine)
      as (b' & Hrun & Hh & Hd & _); [concrete | concrete |].
    exists b'. split; [exact Hrun|]. split; [exact Hh | exact Hd].
  - destruct (resize_down_truncates example_ints 3 nine)
      as (b' & Hrun & _ & _ & Hsame); [concrete | concrete |].
    rewrite Hrun, Hsame; reflexivity.
Defined.

(** [cvector_resize] to a larger size, as the code runs it: the capacity
    is raised to the new size if it was smaller, the size restarts from
    0, and [new_size - size] copies of the value are appended, so the
    result holds [new_size - size] elements, each equal to the value. *)
Theorem resize_up_restarts_from_zero (b : block) (n : Z) (value : list byte) :
  wf b -> fits b n -> size (header b) < n ->
  element_size (header b) <= Z.of_nat (length value) ->
  exists b',
    cvector_resize (Some b) n value = Ok (Some b') /\ wf b' /\
    size (header b') = n - size (header b) /\
    capacity (header b') = Z.max (capacity (header b)) n /\
    element_size (header b') = element_size (header b) /\
    (forall j, 0 <= j < n - size (header b) -> slot b' j = stored b value).
Proof.
  intros Hwf Hfit Hlt Hval.
  destruct (cvector_resize_grow_wf b n value Hwf Hfit Hlt Hval)
    as (b' & Hrun & Hwf' & Hh & Hfill).
  exists b'. split; [exact Hrun|]. split; [exact Hwf'|].
  rewrite Hh. simpl. do 3 (split; [reflexivity|]). exact Hfill.
Qed.

Lemma resize_up_restarts_from_zero_witness :
  exists b',
    cvector_resize (Some example_ints) 5 nine = Ok (Some b') /\ wf b' /\
    size (header b') = 5 - 3 /\
    capacity (header b') = 5 /\
    element_size (header b') = 4 /\
    (forall j, 0 <= j < 5 - 3 -> slot b' j = stored example_ints nine).
Proof.
  apply (resize_up_restarts_from_zero example_ints 5 nine); concrete.
Defined.

(** On an empty well-formed vector [cvector_resize] to [n > 0] gives
    exactly [n] elements, every one of them a copy of the value. *)
Theorem resize_empty_fills (b : block) (n : Z) (value : list byte) :
  wf b -> size (header b) = 0 -> fits b n -> 0 < n ->
  element_size (header b) <= Z.of_nat (length value) ->
  exists b',
    cvector_resize (Some b) n value = Ok (Some b') /\ wf b' /\
    size (header b') = n /\
    (forall j, 0 <= j < n -> slot b' j = stored b value).
Proof.
  intros Hwf Hempty Hfit Hn Hval.
  destruct (cvector_resize_grow_wf b n value Hwf Hfit) as (b' & Hrun & Hwf' & Hh & Hfill);
    [lia | assumption |].
  exists b'. split; [exact Hrun|]. split; [exact Hwf'|].
  rewrite Hempty, Z.sub_0_r in *. rewrite Hh. simpl.
  split; [reflexivity | exact Hfill].
Qed.

Lemma resize_empty_fills_witness :
  exists b',
    cvector_resize (Some example_empty) 3 nine = Ok (Some b') /\ wf b' /\
    size (header b') = 3 /\
    (forall j, 0 <= j < 3 -> slot b' j = stored example_empty nine).
Proof. apply (resize_empty_fills example_empty 3 nine); concrete. Defined.

(** ** Invariants over all operations *)

(** What a safe call on a well-formed vector returns, read at the
    header. *)
Lemma safe_call_header (op : operation) (b : block) :
  wf b -> safe_call op b ->
  exists b',
    run op (Some b) = Ok (Some b') /\
    element_size (header b') = element_size (header b) /\
    (sets_capacity op = false ->
     capacity (header b) <= capacity (header b')).
Proof.
  intros Hwf Hsafe. pose proof Hwf as Hwf0. break_wf Hwf0.
  assert (Hgrown : room b -> capacity (header b) <= grown_capacity b).
  { intros (Hlt & _). unfold grown_capacity in *.
    destruct (Z.leb_spec (capacity (header b)) (size (header b))); lia. }
  destruct op as [n|n| |value| |i value|i| |n value| ];
    simpl in Hsafe; cbn [run sets_capacity].
  - destruct (cvector_reserve_wf b n Hwf Hsafe) as (b' & Hrun & _ & Hh & _).
    exists b'. rewrite Hh. simpl. repeat split; [exact Hrun | lia].
  - destruct Hsafe as [Hfit Hsn].
    destruct (cvector_grow_wf b n Hwf Hfit Hsn) as (b' & Hrun & _ & Hh & _).
    exists b'. rewrite Hh. simpl. repeat split; [exact Hrun | discriminate].
  - rewrite cvector_shrink_to_fit_spec by assumption.
    eexists. split; [reflexivity|]. simpl. split; [reflexivity | discriminate].
  - destruct Hsafe as [Hroom Hval].
    destruct (cvector_push_back_wf b value Hwf Hroom Hval)
      as (b' & Hrun & _ & _ & Hc & He).
    exists b'. rewrite Hc, He. repeat split; [exact Hrun | auto].
  - rewrite cvector_pop_back_spec. eexists. split; [reflexivity|].
    simpl. split; [reflexivity | lia].
  - destruct Hsafe as (Hroom & Hi & Hval).
    destruct (cvector_insert_wf b i value Hwf Hroom Hi Hval)
      as (b' & Hrun & _ & Hh).
    exists b'. rewrite Hh. simpl. repeat split; [exact Hrun | auto].
  - destruct Hsafe as [Hi0 Hi1].
    destruct (Z.lt_ge_cases i (size (header b))) as [Hin|Hout].
    + destruct (cvector_remove_wf b i Hwf) as (b' & Hrun & _ & Hh); [lia|].
      exists b'. rewrite Hh. simpl. repeat split; [exact Hrun | lia].
    + exists b. split; [|split; [reflexivity | lia]].
      unfold cvector_remove. simpl.
      destruct (Z.leb_spec (size (header b)) i); [reflexivity | lia].
  - eexists. split; [reflexivity|]. simpl. split; [reflexivity | lia].
  - destruct Hsafe as (Hfit & Hval).
    destruct (Z.lt_ge_cases (size (header b)) n) as [Hup|Hdown].
    + destruct (cvector_resize_grow_wf b n value Hwf Hfit Hup (Hval Hup))
        as (b' & Hrun & _ & Hh & _).
      exists b'. rewrite Hh. simpl. repeat split; [exact Hrun | lia].
    + destruct Hfit as [[Hn0 Hn1] _].
      rewrite cvector_resize_shrink_spec by (unfold is_size_t; lia).
      eexists. split; [reflexivity|]. simpl. split; [reflexivity | lia].
  - rewrite cvector_clone_spec by assumption.
    exists b. split; [reflexivity|]. split; [reflexivity | lia].
Qed.

(** No safe call changes the element width: on a well-formed vector
    every operation called within its contract returns a vector with the
    [element_size] it found. *)
Theorem element_size_never_changes (op : operation) (b : block) :
  wf b -> safe_call op b ->
  exists b',
    run op (Some b) = Ok (Some b') /\
    element_size (header b') = element_size (header b).
Proof.
  intros Hwf Hsafe.
  destruct (safe_call_header op b Hwf Hsafe) as (b' & Hrun & He & _).
  exists b'. split; assumption.
Qed.

Lemma element_size_never_changes_witness :
  (exists b',
     run (Insert 0 nine) (Some example_ints) = Ok (Some b') /\
     element_size (header b') = 4) /\
  (exists b',
     run (Resize 7 nine) (Some example_ints) = Ok (Some b') /\
     element_size (header b') = 4).
Proof.
  split.
  - apply (element_size_never_changes (Insert 0 nine) example_ints); concrete.
  - apply (element_size_never_changes (Resize 7 nine) example_ints);
      [concrete | split; [concrete | intros _; concrete]].
Defined.

(** Apart from [cvector_grow] and [cvector_shrink_to_fit], which set the
    capacity they are told to, no safe call lowers the capacity: on a
    well-formed vector every other operation called within its contract
    returns a vector whose capacity is at least the one it found. *)
Theorem capacity_never_decreases (op : operation) (b : block) :
  sets_capacity op = false -> wf b -> safe_call op b ->
  exists b',
    run op (Some b) = Ok (Some b') /\
    capacity (header b) <= capacity (header b').
Proof.
  intros Hop Hwf Hsafe.
  destruct (safe_call_header op b Hwf Hsafe) as (b' & Hrun & _ & Hc).
  exists b'. split; [exact Hrun | exact (Hc Hop)].
Qed.

Lemma capacity_never_decreases_witness :
  (exists b',
     run (Resize 1 nine) (Some example_ints) = Ok (Some b') /\
     capacity (header example_ints) <= capacity (header b')) /\
  (exists b',
     run (PushBack [x09]) (Some example_full) = Ok (Some b') /\
     capacity (header example_full) <= capacity (header b')).
Proof.
  split.
  - apply (capacity_never_decreases (Resize 1 nine) example_ints);
      [reflexivity | concrete | split; [concrete | intros H; exfalso]].
    vm_compute in H. discriminate.
  - apply (capacity_never_decreases (PushBack [x09]) example_full);
      [reflexivity | concrete | concrete].
Defined.

(** A safe call on a well-formed vector never faults and returns a
    well-formed vector: the header stays consistent with the length of
    the block, which stays [HEADER_SIZE + capacity * element_size]. *)
Theorem safe_calls_keep_wf (op : operation) (b : block) :
  wf b -> safe_call op b ->
  exists b', run op (Some b) = Ok (Some b') /\ wf b'.
Proof.
  intros Hwf Hsafe. pose proof Hwf as Hwf0. break_wf Hwf0.
  destruct op as [n|n| |value| |i value|i| |n value| ];
    simpl in Hsafe; cbn [run].
  - destruct (cvector_reserve_wf b n Hwf Hsafe) as (b' & Hrun & Hwf' & _).
    eauto.
  - destruct Hsafe as [Hfit Hsn].
    destruct (cvector_grow_wf b n Hwf Hfit Hsn) as (b' & Hrun & Hwf' & _).
    eauto.
  - rewrite cvector_shrink_to_fit_spec by assumption.
    eexists. split; [reflexivity|].
    assert (0 <= size (header b) * element_size (header b))
      by (apply Z.mul_nonneg_nonneg; lia).
    assert (size (header b) * element_size (header b)
            <= capacity (header b) * element_size (header b)) by nia.
    repeat split; simpl; try lia.
    unfold live_bytes. rewrite length_firstn. lia.
  - destruct Hsafe as [Hroom Hval].
    destruct (cvector_push_back_wf b value Hwf Hroom Hval)
      as (b' & Hrun & Hwf' & _).
    eauto.
  - rewrite cvector_pop_back_spec. eexists. split; [reflexivity|].
    rewrite to_size_t_small by lia.
    repeat split; simpl; lia.
  - destruct Hsafe as (Hroom & Hi & Hval).
    destruct (cvector_insert_wf b i value Hwf Hroom Hi Hval)
      as (b' & Hrun & Hwf' & _).
    eauto.
  - destruct Hsafe as [Hi0 Hi1].
    destruct (Z.lt_ge_cases i (size (header b))) as [Hin|Hout].
    + destruct (cvector_remove_wf b i Hwf) as (b' & Hrun & Hwf' & _);
        [lia|]. eauto.
    + exists b. split; [|assumption].
      unfold cvector_remove. simpl.
      destruct (Z.leb_spec (size (header b)) i); [reflexivity | lia].
  - eexists. split; [reflexivity|]. repeat split; simpl; lia.
  - destruct Hsafe as (Hfit & Hval).
    destruct (Z.lt_ge_cases (size (header b)) n) as [Hup|Hdown].
    + destruct (cvector_resize_grow_wf b n value Hwf Hfit Hup (Hval Hup))
        as (b' & Hrun & Hwf' & _).
      eauto.
    + destruct Hfit as [[Hn0 Hn1] _].
      rewrite cvector_resize_shrink_spec by (unfold is_size_t; lia).
      eexists. split; [reflexivity|]. repeat split; simpl; lia.
  - rewrite cvector_clone_spec by assumption. eauto.
Qed.

Lemma safe_calls_keep_wf_witness :
  (exists b', run (Insert 1 nine) (Some example_ints) = Ok (Some b') /\ wf b') /\
  (exists b', run (Resize 7 nine) (Some example_ints) = Ok (Some b') /\ wf b') /\
  (exists b', run ShrinkToFit (Some example_ints) = Ok (Some b') /\ wf b').
Proof.
  split; [|split].
  - apply (safe_calls_keep_wf (Insert 1 nine) example_ints); concrete.
  - apply (safe_calls_keep_wf (Resize 7 nine) example_ints);
      [concrete | split; [concrete | intros _; concrete]].
  - apply (safe_calls_keep_wf ShrinkToFit example_ints); concrete.
Defined.

(** ** Capacity across calls *)

(** Appends that fit in the capacity already allocated never reallocate:
    on a well-formed vector with [size + N <= capacity], the capacity
    read after each of [N] consecutive appends is the one it started
    with. *)
Theorem appends_within_capacity_keep_it
  (b : block) (values : list (list byte)) :
  wf b ->
  size (header b) + Z.of_nat (length values) <= capacity (header b) ->
  Forall (fun v => element_size (header b) <= Z.of_nat (length v)) values ->
  capacity_trace (Some b) values
  = Ok (repeat (capacity (header b)) (length values)).
Proof.
  revert b.
  induction values as [|value rest IH]; intros b Hwf Hroom Hvals.
  - reflexivity.
  - inversion Hvals as [|? ? Hval Hrest]; subst. simpl length in *.
    destruct (cvector_push_back_free b value Hwf) as (b' & Hpush & Hwf' & Hh & _);
      [lia | assumption |].
    simpl. rewrite Hpush. simpl.
    rewrite (IH b' Hwf'); rewrite ?Hh; simpl; try assumption; [reflexivity | lia].
Qed.

Lemma appends_within_capacity_keep_it_witness :
  capacity_trace (Some example_bytes) [[x01]; [x02]; [x03]] = Ok [4; 4; 4].
Proof.
  apply (appends_within_capacity_keep_it example_bytes [[x01]; [x02]; [x03]]).
  - concrete.
  - concrete.
  - repeat constructor; vm_compute; discriminate.
Defined.

(** After [cvector_shrink_to_fit] a well-formed vector is full, so the
    next append reallocates: it returns a well-formed vector of capacity
    [max 1 (2 * size)] that still holds the old elements. *)
Theorem append_after_shrink_doubles (b : block) (value : list byte) :
  wf b -> fits b (Z.max 1 (2 * size (header b))) ->
  element_size (header b) <= Z.of_nat (length value) ->
  exists b',
    (vec <- cvector_shrink_to_fit (Some b);; cvector_push_back vec value)
      = Ok (Some b') /\ wf b' /\
    size (header b') = size (header b) + 1 /\
    capacity (header b') = Z.max 1 (2 * size (header b)) /\
    firstn (Z.to_nat (size (header b) * element_size (header b))) (data b')
      = live_bytes b.
Proof.
  intros Hwf [[Hm0 Hm1] Hfit] Hval. pose proof Hwf as Hwf0. break_wf Hwf0.
  rewrite cvector_shrink_to_fit_spec by assumption. cbn [bind].
  set (b1 := mk_block (mk_header (size (header b)) (size (header b))
                                 (element_size (header b))) (live_bytes b)).
  assert (Hse : 0 <= size (header b) * element_size (header b))
    by (apply Z.mul_nonneg_nonneg; lia).
  assert (Hsc : size (header b) * element_size (header b)
                <= capacity (header b) * element_size (header b)) by nia.
  assert (Hwf1 : wf b1).
  { unfold b1. repeat split; simpl; try lia.
    unfold live_bytes. rewrite length_firstn. lia. }
  assert (Hg : grown_capacity b1 = Z.max 1 (2 * size (header b))).
  { unfold grown_capacity, b1. cbn [header size capacity].
    rewrite Z.leb_refl.
    destruct (Z.eq_dec (size (header b)) 0) as [E|E].
    - rewrite E. reflexivity.
    - rewrite next_grow_double; lia. }
  assert (Hroom : room b1).
  { split; rewrite Hg; [unfold b1; cbn [header size]; lia | exact Hfit]. }
  assert (Hval1 : element_size (header b1) <= Z.of_nat (length value))
    by exact Hval.
  pose proof (grown_keeps_live_bytes b1 _ Hwf1 Hroom (Nat.le_refl _)) as Hkeep.
  pose proof (grown_data_length b1 Hwf1 Hroom) as Hlen.
  destruct (cvector_push_back_wf b1 value Hwf1 Hroom Hval1)
    as (b' & Hpush & Hwf' & Hs' & Hc' & He').
  exists b'. split; [exact Hpush|]. split; [exact Hwf'|].
  split; [exact Hs'|]. split; [now rewrite Hc'|].
  assert (Hd : data b' =
               store (data (grown b1))
                 (Z.to_nat (element_size (header b) * size (header b)))
                 (stored b value)).
  { rewrite cvector_push_back_spec in Hpush by assumption.
    now inversion Hpush. }
  rewrite Hd.
  change (size (header b1)) with (size (header b)) in *.
  change (element_size (header b1)) with (element_size (header b)) in *.
  rewrite Hg in Hlen.
  assert (Hbs : length (stored b value)
                = Z.to_nat (element_size (header b)))
    by (unfold stored; apply length_copied; lia).
  rewrite firstn_store.
  - rewrite Hkeep. unfold b1. cbn [data]. unfold live_bytes.
    rewrite firstn_firstn. f_equal. lia.
  - lia.
  - rewrite Hbs. nia.
Qed.

Lemma append_after_shrink_doubles_witness :
  exists b',
    (vec <- cvector_shrink_to_fit (Some example_ints);;
     cvector_push_back vec nine) = Ok (Some b') /\ wf b' /\
    size (header b') = 4 /\
    capacity (header b') = 6 /\
    firstn (Z.to_nat (3 * 4)) (data b') = live_bytes example_ints.
Proof. apply (append_after_shrink_doubles example_ints nine); concrete. Defined.

(** ** Requests too large for [size_t] *)

(** [cvector_reserve] does not guard the length it asks [realloc] for.
    When [HEADER_SIZE + new_capacity * element_size] does not fit in a
    [size_t], a call that returns has stored the requested capacity in
    the header of a block that is too short to hold that many
    elements. *)
Theorem reserve_overflow_breaks_layout (b : block) (n : Z) vec' :
  0 <= element_size (header b) -> is_size_t n ->
  capacity (header b) < n ->
  SIZE_MODULUS <= HEADER_SIZE + n * element_size (header b) ->
  cvector_reserve (Some b) n = Ok vec' ->
  exists b',
    vec' = Some b' /\ capacity (header b') = n /\
    Z.of_nat (length (data b')) < n * element_size (header b).
Proof.
  intros He [Hn0 Hn1] Hlt Hover Hrun.
  unfold cvector_reserve in Hrun. simpl in Hrun.
  destruct (Z.ltb_spec (capacity (header b)) n); [|lia].
  unfold cvector_grow in Hrun. simpl in Hrun. unfold realloc in Hrun.
  set (inner := to_size_t (n * element_size (header b))) in *.
  set (NEW_SIZE := to_size_t (HEADER_SIZE + inner)) in *.
  pose proof (to_size_t_range (n * element_size (header b))) as Hinner.
  pose proof (to_size_t_range (HEADER_SIZE + inner)) as Hnew.
  fold inner in Hinner. fold NEW_SIZE in Hnew.
  pose proof HEADER_SIZE_value as HH. pose proof SIZE_MODULUS_value as HM.
  destruct (Z.ltb_spec NEW_SIZE HEADER_SIZE); [discriminate|].
  simpl in Hrun. inversion Hrun.
  eexists. split; [reflexivity|]. simpl. split; [reflexivity|].
  rewrite length_resize_bytes.
  (* the block has [NEW_SIZE - HEADER_SIZE < SIZE_MODULUS - HEADER_SIZE]
     bytes; either the product already exceeds that, or the sum wrapped
     below [HEADER_SIZE], which the test above excluded *)
  destruct (Z.lt_ge_cases (n * element_size (header b)) SIZE_MODULUS)
    as [Hsmall|Hbig]; [|lia].
  assert (Hin : inner = n * element_size (header b)).
  { unfold inner. apply to_size_t_small.
    split; [apply Z.mul_nonneg_nonneg; lia | assumption]. }
  assert (Hwrap : NEW_SIZE = HEADER_SIZE + inner - SIZE_MODULUS).
  { unfold NEW_SIZE, to_size_t. symmetry.
    apply Z.mod_unique_pos with (q := 1); lia. }
  lia.
Qed.

Lemma reserve_overflow_breaks_layout_witness :
  exists b',
    cvector_reserve (Some (mk_block (mk_header 0 0 16) [])) (2 ^ 60)
      = Ok (Some b') /\
    capacity (header b') = 2 ^ 60 /\
    Z.of_nat (length (data b')) < 2 ^ 60 * 16.
Proof.
  assert (Hrun : exists v,
             cvector_reserve (Some (mk_block (mk_header 0 0 16) [])) (2 ^ 60)
             = Ok v)
    by (eexists; vm_compute; reflexivity).
  destruct Hrun as [v Hrun].
  destruct (reserve_overflow_breaks_layout
              (mk_block (mk_header 0 0 16) []) (2 ^ 60) v)
    as (b' & Hv & Hc & Hl);
    [concrete | concrete | concrete | concrete | exact Hrun |].
  exists b'. rewrite Hrun, Hv. split; [reflexivity|].
  split; [exact Hc | exact Hl].
Defined.
